(** * Message-passing blocks of chemprop v2: a shallow embedding

    Source: [chemprop/v2/models/modules/message_passing/molecule.py]
    (classes [MessagePassingBlockBase], [BondMessageBlock] and
    [AtomMessageBlock]).

    Tensors are dense arrays of scalars.  The scalar type is kept abstract
    (class [Scalar]) so that every statement holds for any arithmetic that
    satisfies the laws the statement names; concrete runs use the integers.
    The few [torch] primitives the blocks call (indexing, [cat], [sum],
    broadcasting arithmetic, [nn.Linear], [nn.Dropout]) are written out with
    the exceptions they raise. *)

From Stdlib Require Import String ZArith QArith Lia Bool Arith List.
Import ListNotations.
Local Open Scope string_scope.
Local Open Scope nat_scope.

Set Implicit Arguments.

(** ** Exceptions and the error monad *)

(** The exceptions that can leave the blocks.  [InvalidShapeError] carries the
    three arguments of its constructor call in [finalize]:
    the parameter name, the received shape and the expected shape. *)
Inductive exn : Type :=
| RuntimeError
| IndexError
| ValueError
| AttributeError (attr : string)
| InvalidShapeError (var_name : string) (received expected : list nat).

Inductive result (A : Type) : Type :=
| Ok (a : A)
| Raise (e : exn).
Arguments Ok {A} a.
Arguments Raise {A} e.

Definition bind {A B : Type} (m : result A) (k : A -> result B) : result B :=
  match m with
  | Ok a => k a
  | Raise e => Raise e
  end.

Declare Scope result_scope.
Delimit Scope result_scope with result.
Notation "x <- m ;; k" := (bind m (fun x => k))
  (at level 61, m at next level, right associativity) : result_scope.
Notation "' pat <- m ;; k" := (bind m (fun x => match x with pat => k end))
  (at level 61, pat pattern, m at next level, right associativity) : result_scope.
Local Open Scope result_scope.

Fixpoint mapM {A B : Type} (f : A -> result B) (l : list A) : result (list B) :=
  match l with
  | [] => Ok []
  | a :: l' => b <- f a ;; bs <- mapM f l' ;; Ok (b :: bs)
  end.

(** [try: body except RuntimeError: handler] *)
Definition except_RuntimeError {A : Type} (body handler : result A) : result A :=
  match body with
  | Raise RuntimeError => handler
  | other => other
  end.

(** [for _ in range(...)]: run [body] on the loop state [n] times, leaving at
    the first exception. *)
Fixpoint repeat_loop {S : Type} (n : nat) (body : S -> result S) (s : S) : result S :=
  match n with
  | O => Ok s
  | S n' => s' <- body s ;; repeat_loop n' body s'
  end.

(** ** Generic list helpers *)

Fixpoint zipWith {A B C : Type} (f : A -> B -> C) (l : list A) (l' : list B) : list C :=
  match l, l' with
  | a :: t, b :: t' => f a b :: zipWith f t t'
  | _, _ => []
  end.

Fixpoint mapi_from {A B : Type} (k : nat) (f : nat -> A -> B) (l : list A) : list B :=
  match l with
  | [] => []
  | a :: t => f k a :: mapi_from (S k) f t
  end.

Definition mapi {A B : Type} (f : nat -> A -> B) (l : list A) : list B :=
  mapi_from 0 f l.

(** ** Scalars *)

(** Entries of a tensor.  [half x] is [x / 2]. *)
Class Scalar (R : Type) : Type := {
  zero : R;
  add : R -> R -> R;
  sub : R -> R -> R;
  mul : R -> R -> R;
  half : R -> R
}.

(** What the blocks take from outside this file.
    - [get_activation_function] is [chemprop.v2.models.utils.get_activation_function]
      (selects the elementwise activation by name);
    - [init_weight] and [init_bias] are the values [nn.Linear] gives to its
      parameters, by parameter name;
    - [keep c i j] is the draw of the random generator for entry [(i, j)] of
      the [c]-th dropout call, and [rescale p x] is [x / (1 - p)]. *)
Class Torch (R : Type) : Type := {
  get_activation_function : string -> result (R -> R);
  init_weight : string -> nat -> nat -> R;
  init_bias : string -> nat -> R;
  keep : nat -> nat -> nat -> bool;
  rescale : Q -> R -> R
}.

Section Tensors.
Context {R : Type} `{Scalar R}.

(** ** Tensors *)

(** A 2-D tensor of shape [nrows x ncols]. *)
Record Tensor : Type := mkTensor {
  ncols : nat;
  rows : list (list R)
}.

(** [len(T)] *)
Definition nrows (T : Tensor) : nat := length (rows T).

(** [T.shape] *)
Definition shape (T : Tensor) : list nat := [nrows T; ncols T].

(** Every row is as wide as the shape says. *)
Definition wf (T : Tensor) : Prop :=
  Forall (fun r => length r = ncols T) (rows T).

(** A 3-D tensor of shape [length slabs x dim1 x dim2]. *)
Record Tensor3 : Type := mkTensor3 {
  dim1 : nat;
  dim2 : nat;
  slabs : list (list (list R))
}.

(** A 2-D tensor of indices, of shape [length entries x arity].  Indices
    are positions counted from 0, as a featurizer produces them; a 1-D
    index tensor is a [list nat]. *)
Record Index2 : Type := mkIndex2 {
  arity : nat;
  entries : list (list nat)
}.

(** The [n x m] tensor whose entry [(i, j)] is [g i j]. *)
Definition tabulate (n m : nat) (g : nat -> nat -> R) : Tensor :=
  {| ncols := m;
     rows := map (fun i => map (fun j => g i j) (seq 0 m)) (seq 0 n) |}.

(** [T[i]]; an index past the end raises [IndexError]. *)
Definition row (T : Tensor) (i : nat) : result (list R) :=
  match nth_error (rows T) i with
  | Some r => Ok r
  | None => Raise IndexError
  end.

(** [T[idx]] for a 1-D index tensor. *)
Definition index_select (T : Tensor) (idx : list nat) : result Tensor :=
  rs <- mapM (row T) idx ;;
  Ok {| ncols := ncols T; rows := rs |}.

(** [T[idx]] for a 2-D index tensor: [length idx x arity x ncols]. *)
Definition index2 (T : Tensor) (idx : Index2) : result Tensor3 :=
  ss <- mapM (mapM (row T)) (entries idx) ;;
  Ok {| dim1 := arity idx; dim2 := ncols T; slabs := ss |}.

(** Sum of two rows, and of a list of rows of width [d]. *)
Definition vadd (x y : list R) : list R := zipWith add x y.

Definition vsum (d : nat) (l : list (list R)) : list R :=
  fold_left vadd l (repeat zero d).

(** [T.sum(1)] *)
Definition sum1 (T : Tensor3) : Tensor :=
  {| ncols := dim2 T; rows := map (vsum (dim2 T)) (slabs T) |}.

(** The value of [torch.cat((A, B), 1)] when the row counts agree. *)
Definition cat1_out (A B : Tensor) : Tensor :=
  {| ncols := ncols A + ncols B; rows := zipWith (@app R) (rows A) (rows B) |}.

(** [torch.cat((A, B), 1)] on 2-D tensors; row counts that differ raise
    [RuntimeError]. *)
Definition cat1 (A B : Tensor) : result Tensor :=
  if nrows A =? nrows B then Ok (cat1_out A B) else Raise RuntimeError.

(** [torch.cat((A, B), 2)] on 3-D tensors. *)
Definition cat2 (A B : Tensor3) : result Tensor3 :=
  if (length (slabs A) =? length (slabs B)) && (dim1 A =? dim1 B)
  then Ok {| dim1 := dim1 A; dim2 := dim2 A + dim2 B;
             slabs := zipWith (zipWith (@app R)) (slabs A) (slabs B) |}
  else Raise RuntimeError.

(** Broadcasting of one dimension. *)
Definition bshape (n m : nat) : option nat :=
  if n =? m then Some n
  else if n =? 1 then Some m
  else if m =? 1 then Some n
  else None.

(** Position read in a dimension of size [n] for position [i] of the
    broadcast result, and the entry of [T] read for entry [(i, j)]. *)
Definition bidx (n i : nat) : nat := if n =? 1 then 0 else i.

Definition bget (T : Tensor) (i j : nat) : R :=
  nth (bidx (ncols T) j) (nth (bidx (nrows T) i) (rows T) []) zero.

(** Elementwise binary operation with broadcasting. *)
Definition tzip (f : R -> R -> R) (A B : Tensor) : result Tensor :=
  match bshape (nrows A) (nrows B), bshape (ncols A) (ncols B) with
  | Some n, Some m => Ok (tabulate n m (fun i j => f (bget A i j) (bget B i j)))
  | _, _ => Raise RuntimeError
  end.

(** [A + B] and [A - B] *)
Definition tadd : Tensor -> Tensor -> result Tensor := tzip add.
Definition tsub : Tensor -> Tensor -> result Tensor := tzip sub.

(** An elementwise function, such as the activation. *)
Definition tmap (f : R -> R) (T : Tensor) : Tensor :=
  {| ncols := ncols T; rows := map (map f) (rows T) |}.

(** [T / 2] *)
Definition tdiv2 : Tensor -> Tensor := tmap half.

(** ** [nn.Linear] *)

(** The layer holds its two sizes and its parameters: [weight j k] for
    [j < out_features] and [k < in_features], and [bias j] when the layer
    was created with a bias. *)
Record Linear : Type := mkLinear {
  in_features : nat;
  out_features : nat;
  weight : nat -> nat -> R;
  bias : option (nat -> R)
}.

(** One output row: entry [j] is the product of the input row with row [j]
    of the weight, plus the bias. *)
Definition dot (n : nat) (x : list R) (w : nat -> R) : R :=
  fold_left (fun acc k => add acc (mul (nth k x zero) (w k))) (seq 0 n) zero.

Definition linear_row (L : Linear) (x : list R) : list R :=
  map (fun j =>
         let y := dot (in_features L) x (weight L j) in
         match bias L with
         | Some b => add y (b j)
         | None => y
         end)
      (seq 0 (out_features L)).

(** The value of [L(X)] when the widths agree: [X @ weight.T + bias]. *)
Definition linear_out (L : Linear) (X : Tensor) : Tensor :=
  {| ncols := out_features L; rows := map (linear_row L) (rows X) |}.

(** [L(X)]; a wrong input width raises [RuntimeError]. *)
Definition apply_linear (L : Linear) (X : Tensor) : result Tensor :=
  if ncols X =? in_features L then Ok (linear_out L X) else Raise RuntimeError.

End Tensors.

Arguments Tensor R : clear implicits.
Arguments Tensor3 R : clear implicits.
Arguments Linear R : clear implicits.

Section Blocks.
Context {R : Type} `{Scalar R} `{Torch R}.

(** ** [nn.Dropout] *)

(** The module holds its probability and the [training] flag every
    [nn.Module] starts with. *)
Record Dropout : Type := mkDropout {
  p : Q;
  training : bool
}.

(** [nn.Dropout(p)]: a probability outside [0, 1] raises [ValueError]. *)
Definition nn_Dropout (p : Q) : result Dropout :=
  if Qle_bool 0 p && Qle_bool p 1
  then Ok {| p := p; training := true |}
  else Raise ValueError.

(** The [c]-th call of the module.  It is the identity in evaluation mode
    and for [p = 0], multiplies by zero for [p = 1], and otherwise
    multiplies every entry by its rescaled draw. *)
Definition apply_dropout (D : Dropout) (c : nat) (T : Tensor R) : Tensor R :=
  if negb (training D) || Qeq_bool (p D) 0 then T
  else if Qeq_bool (p D) 1 then tmap (fun x => mul x zero) T
  else {| ncols := ncols T;
          rows := mapi (fun i r =>
                          mapi (fun j x => if keep c i j
                                           then rescale (p D) x
                                           else mul x zero) r)
                       (rows T) |}.

(** [nn.Linear(i, o, b)] for the parameter called [name]. *)
Definition nn_Linear (name : string) (i o : nat) (b : bool) : Linear R :=
  {| in_features := i;
     out_features := o;
     weight := init_weight name;
     bias := if b then Some (init_bias name) else None |}.

(** ** The batched graph *)

(** Modelled from the spec: [chemprop.v2.featurizers.BatchMolGraph] is not
    among the sources. Section 3 of the specification gives its fields:
    the vertex and edge feature matrices [V] and [E] with a sentinel row 0,
    the padded incoming-edge lists [a2b], the origin atom [b2a] of every
    directed edge, the reverse edge [b2revb], the padded neighbour lists
    [a2a], and the molecule boundaries, kept here as one
    (first atom, number of atoms) pair per molecule. *)
Record BatchMolGraph : Type := mkBatchMolGraph {
  V : Tensor R;
  E : Tensor R;
  a2b : Index2;
  b2a : list nat;
  b2revb : list nat;
  a2a : Index2;
  mol_scope : list (nat * nat)
}.

(** Number of molecule graphs in the batch. *)
Definition n_mols (bmg : BatchMolGraph) : nat := length (mol_scope bmg).

(** ** [MessagePassingBlockBase] and its two subclasses *)

Inductive Variant : Type := BondMessageBlock | AtomMessageBlock.

(** The attributes [__init__] sets.  [d_vd] and [W_vd] exist only when a
    descriptor width was given; [private_output_dim] is the name-mangled
    [__output_dim]. *)
Record Block : Type := mkBlock {
  variant : Variant;
  depth : Z;
  undirected : bool;
  dropout : Dropout;
  tau : R -> R;
  private_output_dim : nat;
  d_vd : option nat;
  W_vd : option (Linear R);
  W_i : Linear R;
  W_h : Linear R;
  W_o : Linear R
}.

(** [BondMessageBlock.setup_weight_matrices] and
    [AtomMessageBlock.setup_weight_matrices] *)
Definition setup_weight_matrices (v : Variant) (d_v d_e d_h : nat) (bias : bool)
  : Linear R * Linear R * Linear R :=
  match v with
  | BondMessageBlock =>
      (nn_Linear "W_i" d_e d_h bias,
       nn_Linear "W_h" d_h d_h bias,
       nn_Linear "W_o" (d_v + d_h) d_h true)
  | AtomMessageBlock =>
      (nn_Linear "W_i" d_v d_h bias,
       nn_Linear "W_h" (d_e + d_h) d_h bias,
       nn_Linear "W_o" (d_v + d_h) d_h true)
  end.

(** [MessagePassingBlockBase.__init__] *)
Definition init (v : Variant) (d_v d_e d_h : nat) (bias : bool) (depth : Z)
    (undirected : bool) (dropout : Q) (activation : string) (d_vd : option nat)
  : result Block :=
  drop <- nn_Dropout dropout ;;
  act <- get_activation_function activation ;;
  let out_dim := d_h in
  let '(out_dim, W_vd) :=
    match d_vd with
    | Some k => (out_dim + k, Some (nn_Linear "W_vd" (d_h + k) (d_h + k) true))
    | None => (out_dim, None)
    end in
  let '(W_i, W_h, W_o) := setup_weight_matrices v d_v d_e d_h bias in
  Ok {| variant := v; depth := depth; undirected := undirected;
        dropout := drop; tau := act; private_output_dim := out_dim;
        d_vd := d_vd; W_vd := W_vd; W_i := W_i; W_h := W_h; W_o := W_o |}.

(** The [output_dim] property. *)
Definition output_dim (blk : Block) : nat := out_features (W_o blk).

(** Reading an attribute that [__init__] did not set. *)
Definition getattr {A : Type} (name : string) (a : option A) : result A :=
  match a with
  | Some x => Ok x
  | None => Raise (AttributeError name)
  end.

(** [MessagePassingBlockBase.finalize]; [c] counts the dropout calls made
    so far. *)
Definition finalize (blk : Block) (c : nat) (M_v V : Tensor R) (V_d : option (Tensor R))
  : result (Tensor R) :=
  X <- cat1 V M_v ;;
  H_v <- apply_linear (W_o blk) X ;;
  let H_v := tmap (tau blk) H_v in
  let H_v := apply_dropout (dropout blk) c H_v in
  match V_d with
  | None => Ok H_v
  | Some V_d =>
      except_RuntimeError
        (H_vd <- cat1 H_v V_d ;;
         W <- getattr "W_vd" (W_vd blk) ;;
         H_v <- apply_linear W H_vd ;;
         Ok (apply_dropout (dropout blk) (S c) H_v))
        (d <- getattr "d_vd" (d_vd blk) ;;
         Raise (InvalidShapeError "V_d" (shape V_d) [nrows H_v; d]))
  end.

(** Number of passes of [for _ in range(1, self.depth)]. *)
Definition n_rounds (blk : Block) : nat := Z.to_nat (depth blk - 1).

(** *** Bond-centred recurrence *)

(** [H_e = (H_e + H_e[bmg.b2revb]) / 2] *)
Definition symmetrize (bmg : BatchMolGraph) (H_x : Tensor R) : result (Tensor R) :=
  H_rev <- index_select H_x (b2revb bmg) ;;
  Sum <- tadd H_x H_rev ;;
  Ok (tdiv2 Sum).

(** The MESSAGE step of [BondMessageBlock.forward]. *)
Definition bond_message (bmg : BatchMolGraph) (H_e : Tensor R) : result (Tensor R) :=
  M_e_k <- index2 H_e (a2b bmg) ;;
  M_e <- index_select (sum1 M_e_k) (b2a bmg) ;;
  H_rev <- index_select H_e (b2revb bmg) ;;
  tsub M_e H_rev.

(** One pass of the loop of [BondMessageBlock.forward] on the state
    (hidden tensor, dropout calls so far). *)
Definition bond_round (blk : Block) (bmg : BatchMolGraph) (H_0 : Tensor R)
    (st : Tensor R * nat) : result (Tensor R * nat) :=
  let '(H_e, c) := st in
  H_e <- (if undirected blk then symmetrize bmg H_e else Ok H_e) ;;
  M_e <- bond_message bmg H_e ;;
  H_e <- apply_linear (W_h blk) M_e ;;
  Sum <- tadd H_0 H_e ;;
  let H_e := tmap (tau blk) Sum in
  Ok (apply_dropout (dropout blk) c H_e, S c).

(** The hidden state after [n] passes. *)
Definition bond_hidden (blk : Block) (bmg : BatchMolGraph) (n : nat)
  : result (Tensor R * nat) :=
  H_0 <- apply_linear (W_i blk) (E bmg) ;;
  repeat_loop n (bond_round blk bmg H_0) (tmap (tau blk) H_0, 0).

(** [BondMessageBlock.forward] *)
Definition bond_forward (blk : Block) (bmg : BatchMolGraph) (V_d : option (Tensor R))
  : result (Tensor R) :=
  '(H_e, c) <- bond_hidden blk bmg (n_rounds blk) ;;
  M_v_k <- index2 H_e (a2b bmg) ;;
  finalize blk c (sum1 M_v_k) (V bmg) V_d.

(** *** Atom-centred recurrence *)

(** The message step of [AtomMessageBlock.forward]. *)
Definition atom_message (bmg : BatchMolGraph) (H_v : Tensor R) : result (Tensor R) :=
  H_nb <- index2 H_v (a2a bmg) ;;
  E_nb <- index2 (E bmg) (a2b bmg) ;;
  M_v_k <- cat2 H_nb E_nb ;;
  Ok (sum1 M_v_k).

(** One pass of the loop of [AtomMessageBlock.forward]. *)
Definition atom_round (blk : Block) (bmg : BatchMolGraph) (H_0 : Tensor R)
    (st : Tensor R * nat) : result (Tensor R * nat) :=
  let '(H_v, c) := st in
  H_v <- (if undirected blk then symmetrize bmg H_v else Ok H_v) ;;
  M_v <- atom_message bmg H_v ;;
  H_v <- apply_linear (W_h blk) M_v ;;
  Sum <- tadd H_0 H_v ;;
  let H_v := tmap (tau blk) Sum in
  Ok (apply_dropout (dropout blk) c H_v, S c).

(** The hidden state after [n] passes. *)
Definition atom_hidden (blk : Block) (bmg : BatchMolGraph) (n : nat)
  : result (Tensor R * nat) :=
  H_0 <- apply_linear (W_i blk) (V bmg) ;;
  repeat_loop n (atom_round blk bmg H_0) (tmap (tau blk) H_0, 0).

(** [AtomMessageBlock.forward] *)
Definition atom_forward (blk : Block) (bmg : BatchMolGraph) (V_d : option (Tensor R))
  : result (Tensor R) :=
  '(H_v, c) <- atom_hidden blk bmg (n_rounds blk) ;;
  M_v_k <- index2 H_v (a2a bmg) ;;
  finalize blk c (sum1 M_v_k) (V bmg) V_d.

(** [forward], dispatched on the class of the block. *)
Definition forward (blk : Block) (bmg : BatchMolGraph) (V_d : option (Tensor R))
  : result (Tensor R) :=
  match variant blk with
  | BondMessageBlock => bond_forward blk bmg V_d
  | AtomMessageBlock => atom_forward blk bmg V_d
  end.

End Blocks.

Arguments Block R : clear implicits.
Arguments BatchMolGraph R : clear implicits.

(** ** Notions used to state the properties *)

(** A batch the blocks can run on: the index tensors have the shapes the
    feature matrices call for and every index is in range. *)
Definition graph_ok {R : Type} (d_v d_e : nat) (bmg : BatchMolGraph R) : Prop :=
  ncols (V bmg) = d_v /\ ncols (E bmg) = d_e /\
  length (entries (a2b bmg)) = nrows (V bmg) /\
  length (entries (a2a bmg)) = nrows (V bmg) /\
  length (b2a bmg) = nrows (E bmg) /\
  length (b2revb bmg) = nrows (E bmg) /\
  Forall (Forall (fun e => e < nrows (E bmg))) (entries (a2b bmg)) /\
  Forall (Forall (fun a => a < nrows (V bmg))) (entries (a2a bmg)) /\
  Forall (fun a => a < nrows (V bmg)) (b2a bmg) /\
  Forall (fun e => e < nrows (E bmg)) (b2revb bmg) /\
  arity (a2a bmg) = arity (a2b bmg).

(** [bmg] with its reverse map replaced. *)
Definition set_b2revb {R : Type} (rev : list nat) (bmg : BatchMolGraph R)
  : BatchMolGraph R :=
  {| V := V bmg; E := E bmg; a2b := a2b bmg; b2a := b2a bmg; b2revb := rev;
     a2a := a2a bmg; mol_scope := mol_scope bmg |}.

(** [l[idx]] on 1-D index tensors. *)
Definition index_nat (l idx : list nat) : result (list nat) :=
  mapM (fun i => match nth_error l i with
                 | Some a => Ok a
                 | None => Raise IndexError
                 end) idx.

(** The message step worded as "sum over the incoming edges of the edge's
    destination atom, minus the reverse edge": the destination of an edge is
    the origin [b2a] of its reverse. *)
Definition bond_message_at_destination {R : Type} {SR : Scalar R}
    (bmg : BatchMolGraph R) (H_e : Tensor R) : result (Tensor R) :=
  M_e_k <- index2 H_e (a2b bmg) ;;
  dst <- index_nat (b2a bmg) (b2revb bmg) ;;
  M_e <- index_select (sum1 M_e_k) dst ;;
  H_rev <- index_select H_e (b2revb bmg) ;;
  tsub M_e H_rev.

(** The all-zero tensor of a shape. *)
Definition zeros {R : Type} {SR : Scalar R} (n m : nat) : Tensor R :=
  tabulate n m (fun _ _ => zero).

(** Row 0 of a tensor is all zero. *)
Definition sentinel_zero {R : Type} {SR : Scalar R} (T : Tensor R) : Prop :=
  nth_error (rows T) 0 = Some (repeat zero (ncols T)).

(** Row 0 of a padded index tensor holds index 0 only. *)
Definition pad_row (idx : Index2) : Prop :=
  exists nb, nth_error (entries idx) 0 = Some nb /\ Forall (eq 0) nb.

(** The sentinel convention of section 3 of the specification: row 0 of the
    feature matrices is zero and position 0 of every index tensor points to
    index 0. *)
Definition sentinel_graph {R : Type} {SR : Scalar R} (bmg : BatchMolGraph R) : Prop :=
  sentinel_zero (V bmg) /\ sentinel_zero (E bmg) /\
  pad_row (a2b bmg) /\ pad_row (a2a bmg) /\
  nth_error (b2a bmg) 0 = Some 0 /\ nth_error (b2revb bmg) 0 = Some 0.

(** A neighbour list without its padding entries. *)
Definition unpad (nb : list nat) : list nat :=
  filter (fun i => negb (i =? 0)) nb.

(** The operation the docstring of [finalize] documents, with the activation
    applied to the descriptor projection as well:
    [H_v = dropout(tau(W_vd([H_v, V_d])))]. *)
Definition finalize_documented {R : Type} {SR : Scalar R} {TR : Torch R}
    (blk : Block R) (c : nat) (M_v V : Tensor R) (V_d : option (Tensor R))
  : result (Tensor R) :=
  X <- cat1 V M_v ;;
  H_v <- apply_linear (W_o blk) X ;;
  let H_v := apply_dropout (dropout blk) c (tmap (tau blk) H_v) in
  match V_d with
  | None => Ok H_v
  | Some V_d =>
      except_RuntimeError
        (H_vd <- cat1 H_v V_d ;;
         W <- getattr "W_vd" (W_vd blk) ;;
         H_v <- apply_linear W H_vd ;;
         Ok (apply_dropout (dropout blk) (S c) (tmap (tau blk) H_v)))
        (d <- getattr "d_vd" (d_vd blk) ;;
         Raise (InvalidShapeError "V_d" (shape V_d) [nrows H_v; d]))
  end.

Section Notions.
Context {R : Type} {SR : Scalar R} {TR : Torch R}.

(** The first half of [finalize], up to its first dropout. *)
Definition readout (blk : Block R) (c : nat) (M_v V : Tensor R) : Tensor R :=
  apply_dropout (dropout blk) c
    (tmap (tau blk) (linear_out (W_o blk) (cat1_out V M_v))).

(** Shape of a hidden tensor. *)
Definition has_shape (n m : nat) (st : Tensor R * nat) : Prop :=
  nrows (fst st) = n /\ ncols (fst st) = m.

(** What the loops keep true of the hidden tensor. *)
Definition padded (st : Tensor R * nat) : Prop :=
  sentinel_zero (fst st) /\ wf (fst st).

End Notions.

(** [bmg] with its neighbour lists, or its origin atoms, replaced. *)
Definition set_a2a {R : Type} (x : Index2) (bmg : BatchMolGraph R)
  : BatchMolGraph R :=
  {| V := V bmg; E := E bmg; a2b := a2b bmg; b2a := b2a bmg;
     b2revb := b2revb bmg; a2a := x; mol_scope := mol_scope bmg |}.

Definition set_b2a {R : Type} (x : list nat) (bmg : BatchMolGraph R)
  : BatchMolGraph R :=
  {| V := V bmg; E := E bmg; a2b := a2b bmg; b2a := x;
     b2revb := b2revb bmg; a2a := a2a bmg; mol_scope := mol_scope bmg |}.

(** [idx] with [k] more padding entries at the end of every row, and [bmg]
    with its [a2b] padded so. *)
Definition pad_index (k : nat) (idx : Index2) : Index2 :=
  {| arity := arity idx + k;
     entries := map (fun nb => (nb ++ repeat 0 k)%list) (entries idx) |}.

Definition pad_a2b {R : Type} (k : nat) (bmg : BatchMolGraph R)
  : BatchMolGraph R :=
  {| V := V bmg; E := E bmg; a2b := pad_index k (a2b bmg); b2a := b2a bmg;
     b2revb := b2revb bmg; a2a := a2a bmg; mol_scope := mol_scope bmg |}.

(** ** A concrete instance: integer scalars

    Used to run the blocks on explicit inputs. The activation table knows
    ["relu"] only; every weight is [1] except those of [W_vd], which are
    [-1]; every bias entry is [1]; no entry is dropped. *)

#[export] Instance Z_Scalar : Scalar Z := {|
  zero := 0%Z;
  add := Z.add;
  sub := Z.sub;
  mul := Z.mul;
  half := fun x => (x / 2)%Z
|}.

Definition relu (x : Z) : Z := Z.max 0 x.

#[export] Instance Z_Torch : Torch Z := {|
  get_activation_function := fun name =>
    if String.eqb name "relu" then Ok relu else Raise ValueError;
  init_weight := fun name _ _ => if String.eqb name "W_vd" then (-1)%Z else 1%Z;
  init_bias := fun _ _ => 1%Z;
  keep := fun _ _ _ => true;
  rescale := fun _ x => x
|}.

(** A second generator for the integers, which drops every entry. *)
Definition Z_Torch_dropping : Torch Z := {|
  get_activation_function := fun name =>
    if String.eqb name "relu" then Ok relu else Raise ValueError;
  init_weight := fun name _ _ => if String.eqb name "W_vd" then (-1)%Z else 1%Z;
  init_bias := fun _ _ => 1%Z;
  keep := fun _ _ _ => false;
  rescale := fun _ x => (2 * x)%Z
|}.

(** One molecule of two atoms and one bond: atoms 1 and 2, directed edges
    1 (1 -> 2) and 2 (2 -> 1); index 0 is the sentinel everywhere. *)
Definition two_atoms : BatchMolGraph Z := {|
  V := mkTensor 1 [[0]; [1]; [2]]%Z;
  E := mkTensor 1 [[0]; [3]; [5]]%Z;
  a2b := mkIndex2 1 [[0]; [2]; [1]];
  b2a := [0; 1; 2];
  b2revb := [0; 2; 1];
  a2a := mkIndex2 1 [[0]; [2]; [1]];
  mol_scope := [(1, 2)]
|}.

(** One molecule, a chain 1 - 2 - 3: directed edges 1 (1 -> 2), 2 (2 -> 1),
    3 (2 -> 3) and 4 (3 -> 2). *)
Definition chain3 : BatchMolGraph Z := {|
  V := mkTensor 1 [[0]; [1]; [2]; [3]]%Z;
  E := mkTensor 1 [[0]; [1]; [10]; [100]; [1000]]%Z;
  a2b := mkIndex2 2 [[0; 0]; [2; 0]; [1; 4]; [3; 0]];
  b2a := [0; 1; 2; 2; 3];
  b2revb := [0; 2; 1; 4; 3];
  a2a := mkIndex2 2 [[0; 0]; [2; 0]; [1; 3]; [2; 0]];
  mol_scope := [(1, 3)]
|}.

(** The batch of no molecule: sentinel rows only. *)
Definition empty_batch : BatchMolGraph Z := {|
  V := mkTensor 1 [[0]]%Z;
  E := mkTensor 1 [[0]]%Z;
  a2b := mkIndex2 1 [[0]];
  b2a := [0];
  b2revb := [0];
  a2a := mkIndex2 1 [[0]];
  mol_scope := []
|}.

(** [two_atoms] with a reverse map that is not an involution. *)
Definition two_atoms_bad_rev : BatchMolGraph Z := {|
  V := V two_atoms;
  E := E two_atoms;
  a2b := a2b two_atoms;
  b2a := b2a two_atoms;
  b2revb := [0; 1; 1];
  a2a := a2a two_atoms;
  mol_scope := mol_scope two_atoms
|}.

(** The block [init] builds from integer parameters with ["relu"] and
    dropout probability [0], written out. *)
Definition Z_block (v : Variant) (d_v d_e d_h : nat) (bias : bool) (depth : Z)
    (undirected : bool) (d_vd : option nat) : Block Z :=
  let '(W_i, W_h, W_o) := setup_weight_matrices v d_v d_e d_h bias in
  {| variant := v; depth := depth; undirected := undirected;
     dropout := mkDropout 0 true; tau := relu;
     private_output_dim := match d_vd with Some k => d_h + k | None => d_h end;
     d_vd := d_vd;
     W_vd := match d_vd with
             | Some k => Some (nn_Linear "W_vd" (d_h + k) (d_h + k) true)
             | None => None
             end;
     W_i := W_i; W_h := W_h; W_o := W_o |}.

(** * Datasets: [chemprop/data/v2/datasets.py]

    The datapoints of a dataset are objects the dataset holds by reference
    and mutates in place, so they live in a heap and the dataset's [data] is
    a list of references; one object may sit at several positions.  Methods
    that write return the outcome and the heap they leave. *)

Module Datasets.

Section Model.
Context {F Mol MolGraph Scaler : Type}.

(** [chemprop.data.v2.datapoints] is not among the sources: a datapoint is
    taken as a plain object with the attributes the dataset methods below
    read and write.  [F] is the type of array entries and [Mol] that of
    molecules; 1-D arrays are lists and 2-D arrays lists of rows. *)
Record Datapoint : Type := mkDatapoint {
  mol : Mol;
  targets : list F;
  raw_targets : list F;
  features : option (list F);
  atom_features : option (list (list F));
  bond_features : option (list (list F));
  num_tasks : nat
}.

Definition Heap : Type := nat -> Datapoint.

(** [h] with the object at reference [r] replaced by [d]. *)
Definition upd (h : Heap) (r : nat) (d : Datapoint) : Heap :=
  fun r' => if r' =? r then d else h r'.

(** [d.targets = t] *)
Definition assign_targets (t : list F) (d : Datapoint) : Datapoint :=
  {| mol := mol d; targets := t; raw_targets := raw_targets d;
     features := features d; atom_features := atom_features d;
     bond_features := bond_features d; num_tasks := num_tasks d |}.

(** [StandardScaler().fit] and [StandardScaler.transform], and the
    featurizer of a [MoleculeDataset]: none of them is among the sources. *)
Variable fit : list (list F) -> Scaler.
Variable transform : Scaler -> list (list F) -> list (list F).
Variable featurizer :
  Mol -> option (list (list F)) -> option (list (list F)) -> MolGraph.

Record MolGraphDataset : Type := mkDataset {
  data : list nat
}.

(** [MolGraphDataset.__init__] *)
Definition init (data : option (list nat)) : result MolGraphDataset :=
  match data with
  | None => Raise ValueError
  | Some l => Ok {| data := l |}
  end.


(** The getter of the [targets] property. *)
Definition get_targets (ds : MolGraphDataset) (h : Heap) : list (list F) :=
  map (fun r => targets (h r)) (data ds).

(** The writes of the loop of the setter, in order. *)
Definition write_targets (l : list (nat * list F)) (h : Heap) : Heap :=
  fold_left (fun h rt => upd h (fst rt) (assign_targets (snd rt) (h (fst rt)))) l h.

(** The setter of the [targets] property. *)
Definition set_targets (ds : MolGraphDataset) (ts : list (list F)) (h : Heap)
  : result unit * Heap :=
  if length (data ds) =? length ts
  then (Ok tt, write_targets (combine (data ds) ts) h)
  else (Raise ValueError, h).

(** [np.array] on a list of rows whose first is a 1-D array of [n] entries:
    the rows must form a rectangle; a [None] among them, or a row of another
    length, raises [ValueError]. *)
Fixpoint rows_of_width (n : nat) (l : list (option (list F)))
  : result (list (list F)) :=
  match l with
  | [] => Ok []
  | Some f :: l' =>
      if length f =? n
      then rs <- rows_of_width n l' ;; Ok (f :: rs)
      else Raise ValueError
  | None :: _ => Raise ValueError
  end.

(** The [features] property: [None], or the 2-D array [np.array] makes of
    the [features] attributes. *)
Definition get_features (ds : MolGraphDataset) (h : Heap)
  : result (option (list (list F))) :=
  match data ds with
  | r :: _ =>
      match features (h r) with
      | None => Ok None
      | Some f0 =>
          rs <- rows_of_width (length f0) (map (fun r => features (h r)) (data ds)) ;;
          Ok (Some rs)
      end
  | [] => Ok (Some [])
  end.

(** A [features] attribute that does not fit a rectangle of width [n]. *)
Definition misfit (n : nat) (o : option (list F)) : Prop :=
  match o with
  | None => True
  | Some f => length f <> n
  end.

(** The [num_tasks] property. *)
Definition get_num_tasks (ds : MolGraphDataset) (h : Heap) : option nat :=
  match data ds with
  | r :: _ => Some (num_tasks (h r))
  | [] => None
  end.

(** The [features_size] property. *)
Definition features_size (ds : MolGraphDataset) (h : Heap) : result (option nat) :=
  match data ds with
  | r :: _ =>
      match features (h r) with
      | None => Ok None
      | Some f => Ok (Some (length f))
      end
  | [] => Raise IndexError
  end.

(** [MoleculeDataset.atom_features_size] *)
Definition atom_features_size (ds : MolGraphDataset) (h : Heap)
  : result (option nat) :=
  match data ds with
  | r :: _ =>
      match atom_features (h r) with
      | None => Ok None
      | Some [] => Raise IndexError
      | Some (row0 :: _) => Ok (Some (length row0))
      end
  | [] => Raise IndexError
  end.

(** [MolGraphDataset.normalize_targets] *)
Definition normalize_targets (ds : MolGraphDataset) (h : Heap)
  : result Scaler * Heap :=
  let targets := map (fun r => raw_targets (h r)) (data ds) in
  let scaler := fit targets in
  let scaled_targets := transform scaler targets in
  match set_targets ds scaled_targets h with
  | (Ok _, h') => (Ok scaler, h')
  | (Raise e, h') => (Raise e, h')
  end.



(** The row written last to reference [r] by a run of writes. *)
Fixpoint last_write (r : nat) (l : list (nat * list F)) : option (list F) :=
  match l with
  | [] => None
  | (r', t) :: l' =>
      match last_write r l' with
      | Some t' => Some t'
      | None => if r =? r' then Some t else None
      end
  end.

End Model.

(** Concrete datapoints over the integers, to run the methods: the object at
    reference [r] has targets [[r]], raw targets [[10 r]] and no features. *)
Definition heap0 : @Heap Z unit :=
  fun r => {| mol := tt; targets := [Z.of_nat r]; raw_targets := [(10 * Z.of_nat r)%Z];
              features := None; atom_features := None; bond_features := None;
              num_tasks := 1 |}.

(** [heap0] with features: two entries at references 0 and 1, three at
    reference 3, none elsewhere. *)
Definition heap_features : @Heap Z unit :=
  fun r => {| mol := tt; targets := [Z.of_nat r]; raw_targets := [(10 * Z.of_nat r)%Z];
              features := match r with
                          | 0 => Some [1; 2]%Z
                          | 1 => Some [3; 4]%Z
                          | 3 => Some [5; 6; 7]%Z
                          | _ => None
                          end;
              atom_features := None; bond_features := None; num_tasks := 1 |}.

(** Three distinct datapoints, and a dataset that holds object 0 twice. *)
Definition ds_distinct : MolGraphDataset := {| data := [0; 1; 2] |}.
Definition ds_aliased : MolGraphDataset := {| data := [0; 1; 0] |}.

(** A stand-in scaler: the scaler is an offset, [transform] adds it to every
    entry, [fit] takes the number of rows as the offset. *)
Definition fit0 (rows : list (list Z)) : Z := Z.of_nat (length rows).
Definition transform0 (s : Z) (rows : list (list Z)) : list (list Z) :=
  map (map (Z.add s)) rows.

End Datasets.

(** * Properties *)

(** ** The error monad and the list helpers *)

Ltac bind_ok_as H Hm :=
  match type of H with
  | bind ?m _ = Ok _ =>
      destruct m eqn:Hm; simpl in H; [ | discriminate H ]
  end.

Ltac bind_ok H := let Hm := fresh "Hbind" in bind_ok_as H Hm.

Lemma mapM_length {A B : Type} (f : A -> result B) (l : list A) (bs : list B) :
  mapM f l = Ok bs -> length bs = length l.
Proof.
  revert bs; induction l as [| a l IH]; intros bs Hm; simpl in Hm.
  - now inversion Hm.
  - bind_ok Hm. bind_ok Hm. inversion Hm; subst; simpl.
    f_equal; now apply IH.
Qed.

Lemma mapM_nth_error {A B : Type} (f : A -> result B) (l : list A) (bs : list B)
    (i : nat) (a : A) :
  mapM f l = Ok bs -> nth_error l i = Some a ->
  exists b, f a = Ok b /\ nth_error bs i = Some b.
Proof.
  revert bs i; induction l as [| x l IH]; intros bs i Hm Hi; simpl in Hm.
  - destruct i; discriminate.
  - bind_ok Hm. bind_ok Hm. inversion Hm; subst.
    destruct i as [| i]; simpl in *.
    + inversion Hi; subst. eauto.
    + eapply IH; eauto.
Qed.

Lemma mapM_total {A B : Type} (f : A -> result B) (l : list A) :
  Forall (fun a => exists b, f a = Ok b) l -> exists bs, mapM f l = Ok bs.
Proof.
  induction 1 as [| a l [b Hb] _ [bs Hbs]]; simpl.
  - eauto.
  - rewrite Hb, Hbs; simpl; eauto.
Qed.

Lemma mapM_Forall {A B : Type} (P : B -> Prop) (f : A -> result B) (l : list A)
    (bs : list B) :
  (forall a b, In a l -> f a = Ok b -> P b) -> mapM f l = Ok bs -> Forall P bs.
Proof.
  revert bs; induction l as [| x l IH]; intros bs HP Hm; simpl in Hm.
  - inversion Hm; constructor.
  - bind_ok Hm. bind_ok Hm. inversion Hm; subst. constructor.
    + eapply HP; [ now left | eassumption ].
    + apply IH; auto. intros y b' Hy; apply HP; now right.
Qed.

Lemma zipWith_length {A B C : Type} (f : A -> B -> C) (l : list A) (l' : list B) :
  length (zipWith f l l') = Nat.min (length l) (length l').
Proof.
  revert l'; induction l as [| a l IH]; intros [| b l']; simpl; auto.
Qed.

Lemma zipWith_Forall {A B C : Type} (f : A -> B -> C) (P : A -> Prop) (Q : B -> Prop)
    (S : C -> Prop) (l : list A) (l' : list B) :
  (forall a b, P a -> Q b -> S (f a b)) ->
  Forall P l -> Forall Q l' -> Forall S (zipWith f l l').
Proof.
  intros Hf Hl; revert l'; induction Hl as [| a l Ha _ IH]; intros l' Hl'.
  - destruct l'; constructor.
  - destruct Hl' as [| b l' Hb Hl']; simpl; constructor; auto.
Qed.

Lemma mapi_from_length {A B : Type} (f : nat -> A -> B) (l : list A) (k : nat) :
  length (mapi_from k f l) = length l.
Proof.
  revert k; induction l as [| a l IH]; intros k; simpl; auto.
Qed.

Lemma mapi_from_Forall {A B : Type} (f : nat -> A -> B) (P : A -> Prop) (Q : B -> Prop)
    (l : list A) (k : nat) :
  (forall i a, P a -> Q (f i a)) -> Forall P l -> Forall Q (mapi_from k f l).
Proof.
  intros Hf Hl; revert k; induction Hl; intros k; simpl; constructor; auto.
Qed.

Lemma repeat_loop_counter {T : Type} (body : T * nat -> result (T * nat)) :
  (forall t c t' c', body (t, c) = Ok (t', c') -> c' = S c) ->
  forall n t c t' c', repeat_loop n body (t, c) = Ok (t', c') -> c' = n + c.
Proof.
  intros Hbody; induction n as [| n IH]; intros t c t' c' Hl; simpl in Hl.
  - now inversion Hl.
  - bind_ok_as Hl Hb. destruct a as [t1 c1].
    apply Hbody in Hb; subst c1. apply IH in Hl. lia.
Qed.

Section Shapes.
Context {R : Type} {SR : Scalar R} {TR : Torch R}.

Lemma tmap_wf (f : R -> R) (T : Tensor R) : wf T -> wf (tmap f T).
Proof.
  unfold wf, tmap; simpl; intros Hwf.
  apply Forall_map. eapply Forall_impl; [ | exact Hwf ].
  intros r Hr; simpl. now rewrite length_map.
Qed.

Lemma tmap_nrows (f : R -> R) (T : Tensor R) : nrows (tmap f T) = nrows T.
Proof. unfold nrows, tmap; simpl. apply length_map. Qed.

Lemma apply_dropout_ncols (D : Dropout) (c : nat) (T : Tensor R) :
  ncols (apply_dropout D c T) = ncols T.
Proof.
  unfold apply_dropout.
  destruct (negb (training D) || Qeq_bool (p D) 0); [ reflexivity | ].
  destruct (Qeq_bool (p D) 1); reflexivity.
Qed.

Lemma apply_dropout_nrows (D : Dropout) (c : nat) (T : Tensor R) :
  nrows (apply_dropout D c T) = nrows T.
Proof.
  unfold apply_dropout.
  destruct (negb (training D) || Qeq_bool (p D) 0); [ reflexivity | ].
  destruct (Qeq_bool (p D) 1).
  - apply tmap_nrows.
  - unfold nrows; simpl. apply mapi_from_length.
Qed.

Lemma apply_dropout_wf (D : Dropout) (c : nat) (T : Tensor R) :
  wf T -> wf (apply_dropout D c T).
Proof.
  intros Hwf. unfold apply_dropout.
  destruct (negb (training D) || Qeq_bool (p D) 0); [ exact Hwf | ].
  destruct (Qeq_bool (p D) 1).
  - now apply tmap_wf.
  - unfold wf; simpl. unfold mapi.
    eapply mapi_from_Forall; [ | exact Hwf ].
    intros i r Hr; simpl. now rewrite mapi_from_length.
Qed.

Lemma linear_row_length (L : Linear R) (x : list R) :
  length (linear_row L x) = out_features L.
Proof. unfold linear_row. now rewrite length_map, length_seq. Qed.

Lemma linear_out_wf (L : Linear R) (X : Tensor R) : wf (linear_out L X).
Proof.
  unfold wf, linear_out; simpl. apply Forall_map, Forall_forall.
  intros x _. apply linear_row_length.
Qed.

Lemma linear_out_nrows (L : Linear R) (X : Tensor R) :
  nrows (linear_out L X) = nrows X.
Proof. unfold nrows, linear_out; simpl. apply length_map. Qed.

Lemma apply_linear_ok (L : Linear R) (X : Tensor R) :
  ncols X = in_features L -> apply_linear L X = Ok (linear_out L X).
Proof.
  intros Hw. unfold apply_linear. now rewrite Hw, Nat.eqb_refl.
Qed.

Lemma apply_linear_inv (L : Linear R) (X Y : Tensor R) :
  apply_linear L X = Ok Y -> ncols X = in_features L /\ Y = linear_out L X.
Proof.
  unfold apply_linear. destruct (ncols X =? in_features L) eqn:Hw; [ | discriminate ].
  intros Hy; inversion Hy. apply Nat.eqb_eq in Hw. now split.
Qed.

Lemma apply_linear_bad (L : Linear R) (X : Tensor R) :
  ncols X <> in_features L -> apply_linear L X = Raise RuntimeError.
Proof.
  intros Hw. unfold apply_linear. apply Nat.eqb_neq in Hw. now rewrite Hw.
Qed.

Lemma cat1_ok (A B : Tensor R) :
  nrows A = nrows B -> cat1 A B = Ok (cat1_out A B).
Proof. intros Hn. unfold cat1. now rewrite Hn, Nat.eqb_refl. Qed.

Lemma cat1_bad (A B : Tensor R) :
  nrows A <> nrows B -> cat1 A B = Raise RuntimeError.
Proof. intros Hn. unfold cat1. apply Nat.eqb_neq in Hn. now rewrite Hn. Qed.

Lemma cat1_inv (A B C : Tensor R) :
  cat1 A B = Ok C -> nrows A = nrows B /\ C = cat1_out A B.
Proof.
  unfold cat1. destruct (nrows A =? nrows B) eqn:Hn; [ | discriminate ].
  intros Hc; inversion Hc. apply Nat.eqb_eq in Hn. now split.
Qed.

Lemma cat1_out_nrows (A B : Tensor R) :
  nrows A = nrows B -> nrows (cat1_out A B) = nrows A.
Proof.
  unfold nrows, cat1_out; simpl. intros Hn. rewrite zipWith_length. lia.
Qed.

(** What [__init__] leaves in the attributes. *)
Lemma init_fields (v : Variant) (d_v d_e d_h : nat) (b : bool) (dep : Z)
    (und : bool) (pr : Q) (act : string) (dvd : option nat) (blk : Block R) :
  init v d_v d_e d_h b dep und pr act dvd = Ok blk ->
  variant blk = v /\ depth blk = dep /\ undirected blk = und /\
  d_vd blk = dvd /\
  private_output_dim blk = match dvd with Some k => d_h + k | None => d_h end /\
  W_vd blk = match dvd with
             | Some k => Some (nn_Linear "W_vd" (d_h + k) (d_h + k) true)
             | None => None
             end /\
  (W_i blk, W_h blk, W_o blk) = setup_weight_matrices v d_v d_e d_h b.
Proof.
  unfold init. intros Hi. bind_ok Hi. bind_ok Hi.
  destruct dvd as [k |]; destruct v; simpl in Hi; inversion Hi; subst; simpl;
    repeat split; reflexivity.
Qed.

Lemma init_W_o (v : Variant) (d_v d_e d_h : nat) (b : bool) (dep : Z)
    (und : bool) (pr : Q) (act : string) (dvd : option nat) (blk : Block R) :
  init v d_v d_e d_h b dep und pr act dvd = Ok blk ->
  W_o blk = nn_Linear "W_o" (d_v + d_h) d_h true.
Proof.
  intros Hi. apply init_fields in Hi.
  destruct Hi as (_ & _ & _ & _ & _ & _ & Hw).
  destruct v; simpl in Hw; now inversion Hw.
Qed.

Lemma readout_nrows (blk : Block R) (c : nat) (M_v V : Tensor R) :
  nrows V = nrows M_v -> nrows (readout blk c M_v V) = nrows V.
Proof.
  intros Hn. unfold readout.
  now rewrite apply_dropout_nrows, tmap_nrows, linear_out_nrows, cat1_out_nrows.
Qed.

Lemma readout_ncols (blk : Block R) (c : nat) (M_v V : Tensor R) :
  ncols (readout blk c M_v V) = out_features (W_o blk).
Proof. unfold readout. now rewrite apply_dropout_ncols. Qed.

Lemma readout_wf (blk : Block R) (c : nat) (M_v V : Tensor R) :
  wf (readout blk c M_v V).
Proof. unfold readout. apply apply_dropout_wf, tmap_wf, linear_out_wf. Qed.

Lemma finalize_None (blk : Block R) (c : nat) (M_v V : Tensor R) :
  nrows V = nrows M_v -> ncols V + ncols M_v = in_features (W_o blk) ->
  finalize blk c M_v V None = Ok (readout blk c M_v V).
Proof.
  intros Hn Hw. unfold finalize.
  rewrite (cat1_ok _ _ Hn); simpl.
  rewrite apply_linear_ok by exact Hw; simpl. reflexivity.
Qed.

Lemma finalize_Some (blk : Block R) (c : nat) (M_v V V_d : Tensor R) :
  nrows V = nrows M_v -> ncols V + ncols M_v = in_features (W_o blk) ->
  finalize blk c M_v V (Some V_d) =
  except_RuntimeError
    (H_vd <- cat1 (readout blk c M_v V) V_d ;;
     W <- getattr "W_vd" (W_vd blk) ;;
     H_v <- apply_linear W H_vd ;;
     Ok (apply_dropout (dropout blk) (S c) H_v))
    (d <- getattr "d_vd" (d_vd blk) ;;
     Raise (InvalidShapeError "V_d" (shape V_d) [nrows (readout blk c M_v V); d])).
Proof.
  intros Hn Hw. unfold finalize.
  rewrite (cat1_ok _ _ Hn); simpl.
  rewrite apply_linear_ok by exact Hw; simpl. reflexivity.
Qed.

Lemma finalize_inv (blk : Block R) (c : nat) (M_v V : Tensor R)
    (V_d : option (Tensor R)) (T : Tensor R) :
  finalize blk c M_v V V_d = Ok T ->
  nrows V = nrows M_v /\ ncols V + ncols M_v = in_features (W_o blk).
Proof.
  unfold finalize. intros Hf. bind_ok_as Hf Hc. bind_ok_as Hf Hl.
  apply cat1_inv in Hc as [Hn ->]. apply apply_linear_inv in Hl as [Hw _].
  now split.
Qed.

End Shapes.

Section Finalize.
Context {R : Type} {SR : Scalar R} {TR : Torch R}.

(** C10. For a block constructed with a descriptor width [k], the public
    [output_dim] property is the out-feature width of [W_o], which is [d_h]
    and does not include [k]; the value [d_h + k] the constructor computes
    sits in the private attribute, which [output_dim] does not read; and
    the rows [finalize] returns when a descriptor is fused have width
    [d_h + k]. *)
Theorem output_dim_excludes_descriptor (v : Variant) (d_v d_e d_h : nat) (b : bool)
    (dep : Z) (und : bool) (pr : Q) (act : string) (k : nat) (blk : Block R) :
  init v d_v d_e d_h b dep und pr act (Some k) = Ok blk ->
  output_dim blk = out_features (W_o blk) /\
  output_dim blk = d_h /\
  private_output_dim blk = d_h + k /\
  (forall blk', W_o blk' = W_o blk -> output_dim blk' = output_dim blk) /\
  (forall c M_v V V_d,
      nrows V = nrows M_v -> ncols V = d_v -> ncols M_v = d_h ->
      nrows V_d = nrows V -> ncols V_d = k ->
      exists T, finalize blk c M_v V (Some V_d) = Ok T /\
                ncols T = d_h + k /\ wf T).
Proof.
  intros Hi. pose proof (init_W_o _ _ _ _ _ _ _ _ _ _ Hi) as HWo.
  apply init_fields in Hi. destruct Hi as (_ & _ & _ & Hd & Hp & HWvd & _).
  split; [ reflexivity | ].
  split; [ unfold output_dim; now rewrite HWo | ].
  split; [ exact Hp | ].
  split; [ intros blk' Hw; unfold output_dim; now rewrite Hw | ].
  intros c M_v V0 V_d Hn Hv Hm Hnd Hwd.
  rewrite finalize_Some; [ | exact Hn | rewrite HWo; simpl; lia ].
  rewrite cat1_ok by (rewrite readout_nrows; auto).
  simpl. rewrite HWvd; simpl.
  rewrite apply_linear_ok;
    [ | simpl; rewrite readout_ncols, HWo; simpl; lia ].
  simpl. eexists; split; [ reflexivity | ].
  split; [ now rewrite apply_dropout_ncols | ].
  apply apply_dropout_wf, linear_out_wf.
Qed.

(** C9 (amended). When the first half of [finalize] goes through ([V] and
    [M_v] have as many rows as each other and widths [d_v] and [d_h]) and
    the block was constructed with descriptor width [k]: without a
    descriptor no error is raised; with a descriptor, [finalize] fails
    exactly when the shape of [V_d] differs from [rows(V) x k], in its row
    count or in its width, and the failure is [InvalidShapeError] naming
    ["V_d"] with the received shape and the expected shape. *)
Theorem finalize_fails_iff_descriptor_shape (v : Variant) (d_v d_e d_h : nat)
    (b : bool) (dep : Z) (und : bool) (pr : Q) (act : string) (k : nat)
    (blk : Block R) (c : nat) (M_v V : Tensor R) :
  init v d_v d_e d_h b dep und pr act (Some k) = Ok blk ->
  nrows V = nrows M_v -> ncols V = d_v -> ncols M_v = d_h ->
  (exists T, finalize blk c M_v V None = Ok T) /\
  (forall V_d,
      (shape V_d = [nrows V; k] ->
       exists T, finalize blk c M_v V (Some V_d) = Ok T) /\
      (shape V_d <> [nrows V; k] ->
       finalize blk c M_v V (Some V_d) =
       Raise (InvalidShapeError "V_d" (shape V_d) [nrows V; k]))).
Proof.
  intros Hi Hn Hv Hm. pose proof (init_W_o _ _ _ _ _ _ _ _ _ _ Hi) as HWo.
  apply init_fields in Hi. destruct Hi as (_ & _ & _ & Hd & _ & HWvd & _).
  assert (Hin : ncols V + ncols M_v = in_features (W_o blk))
    by (rewrite HWo; simpl; lia).
  split; [ rewrite finalize_None by assumption; eauto | ].
  intros V_d. rewrite finalize_Some by assumption.
  rewrite HWvd, Hd. simpl getattr.
  pose proof (readout_nrows blk c M_v V Hn) as Hr.
  pose proof (readout_ncols blk c M_v V) as Hc. rewrite HWo in Hc; simpl in Hc.
  unfold shape. split.
  - intros Hs. inversion Hs as [[Hs1 Hs2]].
    rewrite cat1_ok by congruence. simpl.
    rewrite apply_linear_ok by (simpl; lia). simpl. eauto.
  - intros Hs. rewrite Hr.
    destruct (Nat.eq_dec (nrows V_d) (nrows V)) as [Hnd | Hnd].
    + rewrite cat1_ok by congruence. simpl.
      rewrite apply_linear_bad; [ reflexivity | ].
      simpl. rewrite Hc. intros Hw. apply Hs. f_equal; [ exact Hnd | ].
      f_equal. lia.
    + rewrite cat1_bad by congruence. reflexivity.
Qed.

End Finalize.

(** C10, on a bond block with [d_h = 1] and descriptor width [2]. *)
Lemma output_dim_excludes_descriptor_witness :
  init BondMessageBlock 1 1 1 false 3 false 0 "relu" (Some 2)
  = Ok (Z_block BondMessageBlock 1 1 1 false 3 false (Some 2)) /\
  output_dim (Z_block BondMessageBlock 1 1 1 false 3 false (Some 2)) = 1 /\
  private_output_dim (Z_block BondMessageBlock 1 1 1 false 3 false (Some 2)) = 1 + 2.
Proof.
  assert (Hi : init BondMessageBlock 1 1 1 false 3 false 0 "relu" (Some 2)
               = Ok (Z_block BondMessageBlock 1 1 1 false 3 false (Some 2)))
    by reflexivity.
  split; [ exact Hi | ].
  destruct (@output_dim_excludes_descriptor Z _ _ _ _ _ _ _ _ _ _ _ _ _ Hi)
    as (_ & Ho & Hp & _).
  split; [ exact Ho | exact Hp ].
Defined.

(** C9 (amended), on a descriptor of the right shape and on one of the right
    width with a row missing. *)
Lemma finalize_fails_iff_descriptor_shape_witness :
  (exists T, finalize (Z_block BondMessageBlock 1 1 1 false 3 false (Some 2)) 0
               (mkTensor 1 [[0]; [5]; [3]]%Z) (V two_atoms)
               (Some (mkTensor 2 [[0; 0]; [1; 1]; [2; 2]]%Z)) = Ok T) /\
  finalize (Z_block BondMessageBlock 1 1 1 false 3 false (Some 2)) 0
    (mkTensor 1 [[0]; [5]; [3]]%Z) (V two_atoms)
    (Some (mkTensor 2 [[0; 0]; [1; 1]]%Z))
  = Raise (InvalidShapeError "V_d" [2; 2] [3; 2]).
Proof.
  assert (Hi : init BondMessageBlock 1 1 1 false 3 false 0 "relu" (Some 2)
               = Ok (Z_block BondMessageBlock 1 1 1 false 3 false (Some 2)))
    by reflexivity.
  destruct (@finalize_fails_iff_descriptor_shape Z _ _ _ _ _ _ _ _ _ _ _ _ _ 0
              (mkTensor 1 [[0]; [5]; [3]]%Z) (V two_atoms)
              Hi eq_refl eq_refl eq_refl) as [_ Hd].
  split.
  - apply (Hd (mkTensor 2 [[0; 0]; [1; 1]; [2; 2]]%Z)). reflexivity.
  - apply (Hd (mkTensor 2 [[0; 0]; [1; 1]]%Z)). discriminate.
Defined.

(** C9, as stated, fails: a descriptor whose width is the configured [2] but
    which has one row too few makes [finalize] raise. *)
Lemma finalize_raises_on_matching_width :
  ncols (mkTensor 2 [[0; 0]; [1; 1]]%Z)
  = 2 /\
  d_vd (Z_block BondMessageBlock 1 1 1 false 3 false (Some 2)) = Some 2 /\
  finalize (Z_block BondMessageBlock 1 1 1 false 3 false (Some 2)) 0
    (mkTensor 1 [[0]; [5]; [3]]%Z) (V two_atoms)
    (Some (mkTensor 2 [[0; 0]; [1; 1]]%Z))
  = Raise (InvalidShapeError "V_d" [2; 2] [3; 2]).
Proof. repeat split. Qed.

(** C2. On a descriptor whose projection is negative, [finalize] returns the
    negative entries: no activation is applied after [W_vd], whereas the
    documented operation returns their [relu]. *)
Theorem finalize_skips_descriptor_activation :
  finalize (Z_block BondMessageBlock 1 1 1 false 3 false (Some 2)) 0
    (mkTensor 1 [[0]; [5]; [3]]%Z) (V two_atoms)
    (Some (mkTensor 2 [[0; 0]; [1; 1]; [2; 2]]%Z))
  = Ok (mkTensor 3 [[0; 0; 0]; [-8; -8; -8]; [-9; -9; -9]]%Z) /\
  finalize_documented (Z_block BondMessageBlock 1 1 1 false 3 false (Some 2)) 0
    (mkTensor 1 [[0]; [5]; [3]]%Z) (V two_atoms)
    (Some (mkTensor 2 [[0; 0]; [1; 1]; [2; 2]]%Z))
  = Ok (mkTensor 3 [[0; 0; 0]; [0; 0; 0]; [0; 0; 0]]%Z).
Proof. split; reflexivity. Qed.

Section Indexing.
Context {R : Type} {SR : Scalar R}.

Lemma row_ok (T : Tensor R) (i : nat) :
  i < nrows T -> exists r, row T i = Ok r.
Proof.
  intros Hi. unfold row. destruct (nth_error (rows T) i) eqn:Hr; eauto.
  apply nth_error_None in Hr. unfold nrows in Hi. lia.
Qed.

Lemma index_select_ok (T : Tensor R) (idx : list nat) :
  Forall (fun i => i < nrows T) idx ->
  exists T', index_select T idx = Ok T' /\
             nrows T' = length idx /\ ncols T' = ncols T.
Proof.
  intros Hidx. unfold index_select.
  destruct (mapM_total (row T) (l := idx)) as [rs Hrs].
  - eapply Forall_impl; [ | exact Hidx ]. intros i; apply row_ok.
  - rewrite Hrs; simpl. eexists; split; [ reflexivity | ].
    split; [ | reflexivity ]. unfold nrows; simpl. eapply mapM_length; eauto.
Qed.

Lemma index_select_inv (T T' : Tensor R) (idx : list nat) :
  index_select T idx = Ok T' ->
  nrows T' = length idx /\ ncols T' = ncols T /\ mapM (row T) idx = Ok (rows T').
Proof.
  unfold index_select. intros Hs. bind_ok_as Hs Hm. inversion Hs; subst; simpl.
  split; [ unfold nrows; simpl; eapply mapM_length; eauto | now split ].
Qed.

Lemma index2_ok (T : Tensor R) (idx : Index2) :
  Forall (Forall (fun i => i < nrows T)) (entries idx) ->
  exists T3, index2 T idx = Ok T3 /\
             length (slabs T3) = length (entries idx) /\
             dim1 T3 = arity idx /\ dim2 T3 = ncols T.
Proof.
  intros Hidx. unfold index2.
  destruct (mapM_total (mapM (row T)) (l := entries idx)) as [ss Hss].
  - eapply Forall_impl; [ | exact Hidx ]. intros nb Hnb; simpl in Hnb.
    apply mapM_total. eapply Forall_impl; [ | exact Hnb ].
    intros i; apply row_ok.
  - rewrite Hss; simpl. eexists; split; [ reflexivity | ]. simpl.
    split; [ eapply mapM_length; eauto | now split ].
Qed.

Lemma index2_inv (T : Tensor R) (idx : Index2) (T3 : Tensor3 R) :
  index2 T idx = Ok T3 ->
  length (slabs T3) = length (entries idx) /\ dim1 T3 = arity idx /\
  dim2 T3 = ncols T /\ mapM (mapM (row T)) (entries idx) = Ok (slabs T3).
Proof.
  unfold index2. intros Hs. bind_ok_as Hs Hm. inversion Hs; subst; simpl.
  split; [ eapply mapM_length; eauto | now repeat split ].
Qed.

Lemma sum1_nrows (T3 : Tensor3 R) : nrows (sum1 T3) = length (slabs T3).
Proof. unfold nrows, sum1; simpl. apply length_map. Qed.

Lemma bshape_refl (n : nat) : bshape n n = Some n.
Proof. unfold bshape. now rewrite Nat.eqb_refl. Qed.

Lemma tabulate_nrows (n m : nat) (g : nat -> nat -> R) : nrows (tabulate n m g) = n.
Proof. unfold nrows, tabulate; simpl. now rewrite length_map, length_seq. Qed.

Lemma tabulate_wf (n m : nat) (g : nat -> nat -> R) : wf (tabulate n m g).
Proof.
  unfold wf, tabulate; simpl. apply Forall_map, Forall_forall.
  intros i _. now rewrite length_map, length_seq.
Qed.

Lemma tzip_ok (f : R -> R -> R) (A B : Tensor R) :
  nrows A = nrows B -> ncols A = ncols B ->
  tzip f A B
  = Ok (tabulate (nrows A) (ncols A) (fun i j => f (bget A i j) (bget B i j))).
Proof.
  intros Hn Hc. unfold tzip. now rewrite <- Hn, <- Hc, !bshape_refl.
Qed.

Lemma tzip_inv (f : R -> R -> R) (A B C : Tensor R) :
  tzip f A B = Ok C ->
  exists n m, bshape (nrows A) (nrows B) = Some n /\
              bshape (ncols A) (ncols B) = Some m /\
              C = tabulate n m (fun i j => f (bget A i j) (bget B i j)).
Proof.
  unfold tzip. destruct (bshape (nrows A) (nrows B)) as [n |]; [ | discriminate ].
  destruct (bshape (ncols A) (ncols B)) as [m |]; [ | discriminate ].
  intros Hc; inversion Hc. eauto.
Qed.

Lemma cat2_ok (A B : Tensor3 R) :
  length (slabs A) = length (slabs B) -> dim1 A = dim1 B ->
  exists C, cat2 A B = Ok C /\ length (slabs C) = length (slabs A) /\
            dim2 C = dim2 A + dim2 B.
Proof.
  intros Hl Hd. unfold cat2. rewrite Hl, Hd, !Nat.eqb_refl. simpl.
  eexists; split; [ reflexivity | ]. simpl. rewrite zipWith_length. split; lia.
Qed.

End Indexing.

Lemma repeat_loop_invariant {T : Type} (P : T -> Prop) (body : T -> result T) :
  (forall s, P s -> exists s', body s = Ok s' /\ P s') ->
  forall n s, P s -> exists s', repeat_loop n body s = Ok s' /\ P s'.
Proof.
  intros Hbody; induction n as [| n IH]; intros s Hs; simpl.
  - eauto.
  - destruct (Hbody s Hs) as (s1 & Hb & Hs1). rewrite Hb; simpl. now apply IH.
Qed.

Lemma repeat_loop_preserves {T : Type} (P : T -> Prop) (body : T -> result T) :
  (forall s s', P s -> body s = Ok s' -> P s') ->
  forall n s s', P s -> repeat_loop n body s = Ok s' -> P s'.
Proof.
  intros Hbody; induction n as [| n IH]; intros s s' Hs Hl; simpl in Hl.
  - now inversion Hl; subst.
  - bind_ok_as Hl Hb. eapply IH; [ | exact Hl ]. eapply Hbody; eauto.
Qed.

Section Rounds.
Context {R : Type} {SR : Scalar R} {TR : Torch R}.

Lemma symmetrize_ok (bmg : BatchMolGraph R) (H_x : Tensor R) :
  length (b2revb bmg) = nrows H_x ->
  Forall (fun e => e < nrows H_x) (b2revb bmg) ->
  exists H', symmetrize bmg H_x = Ok H' /\
             nrows H' = nrows H_x /\ ncols H' = ncols H_x.
Proof.
  intros Hl Hr. unfold symmetrize.
  destruct (index_select_ok H_x Hr) as (T' & Hs & Hn & Hc).
  rewrite Hs; simpl. unfold tadd. rewrite tzip_ok by congruence. simpl.
  eexists; split; [ reflexivity | ]. unfold tdiv2.
  rewrite tmap_nrows, tabulate_nrows. now split.
Qed.

Lemma bond_message_ok (d_v d_e : nat) (bmg : BatchMolGraph R) (H_e : Tensor R) :
  graph_ok d_v d_e bmg -> nrows H_e = nrows (E bmg) ->
  exists M, bond_message bmg H_e = Ok M /\
            nrows M = nrows (E bmg) /\ ncols M = ncols H_e.
Proof.
  intros (_ & _ & Hab & _ & Hba & Hrev & Fab & _ & Fba & Frev & _) Hn.
  unfold bond_message. rewrite <- Hn in Fab, Frev.
  destruct (index2_ok H_e (a2b bmg) Fab) as (T3 & Hi & Hs & _ & Hd).
  rewrite Hi; simpl.
  destruct (index_select_ok (sum1 T3) (idx := b2a bmg)) as (M & HM & HMn & HMc).
  { rewrite sum1_nrows, Hs, Hab. exact Fba. }
  rewrite HM; simpl.
  destruct (index_select_ok H_e Frev) as (Hr & HHr & Hrn & Hrc).
  rewrite HHr; simpl. unfold tsub.
  rewrite tzip_ok by (simpl in *; congruence).
  eexists; split; [ reflexivity | ]. rewrite tabulate_nrows. simpl.
  split; [ congruence | ]. simpl in HMc. congruence.
Qed.

Lemma bond_round_ok (d_v d_e d_h : nat) (blk : Block R) (bmg : BatchMolGraph R)
    (H_0 : Tensor R) (st : Tensor R * nat) :
  graph_ok d_v d_e bmg ->
  in_features (W_h blk) = d_h -> out_features (W_h blk) = d_h ->
  has_shape (nrows (E bmg)) d_h (H_0, 0) ->
  has_shape (nrows (E bmg)) d_h st ->
  exists st', bond_round blk bmg H_0 st = Ok st' /\
              has_shape (nrows (E bmg)) d_h st'.
Proof.
  intros Hg Hin Hout [H0n H0c] [Hn Hc]. destruct st as [H_e c]. simpl in *.
  assert (Hsym : exists H', (if undirected blk then symmetrize bmg H_e else Ok H_e)
                            = Ok H' /\ nrows H' = nrows (E bmg) /\ ncols H' = d_h).
  { destruct (undirected blk); [ | eauto ].
    destruct Hg as (_ & _ & _ & _ & _ & Hrev & _ & _ & _ & Frev & _).
    destruct (symmetrize_ok bmg H_e) as (H' & Hs & Hn' & Hc');
      [ congruence | now rewrite Hn | ].
    exists H'. repeat split; congruence. }
  destruct Hsym as (H' & Hs & Hn' & Hc'). rewrite Hs; simpl.
  destruct (bond_message_ok H' Hg Hn') as (M & HM & HMn & HMc).
  rewrite HM; simpl. rewrite apply_linear_ok by congruence. simpl.
  unfold tadd. rewrite tzip_ok;
    [ | rewrite linear_out_nrows; congruence | simpl; congruence ].
  simpl. eexists; split; [ reflexivity | ]. unfold has_shape; simpl.
  rewrite apply_dropout_nrows, apply_dropout_ncols, tmap_nrows, tabulate_nrows.
  split; [ exact H0n | exact H0c ].
Qed.

Lemma bond_hidden_ok (d_v d_e d_h : nat) (blk : Block R) (bmg : BatchMolGraph R)
    (n : nat) :
  graph_ok d_v d_e bmg ->
  in_features (W_i blk) = d_e -> out_features (W_i blk) = d_h ->
  in_features (W_h blk) = d_h -> out_features (W_h blk) = d_h ->
  exists st, bond_hidden blk bmg n = Ok st /\ has_shape (nrows (E bmg)) d_h st.
Proof.
  intros Hg HWi Ho Hin Hout. unfold bond_hidden.
  assert (HE : ncols (E bmg) = in_features (W_i blk))
    by (rewrite HWi; apply Hg).
  rewrite apply_linear_ok by exact HE. simpl.
  apply repeat_loop_invariant.
  - intros s Hs. eapply bond_round_ok; eauto.
    split; simpl; [ apply linear_out_nrows | exact Ho ].
  - split; simpl; [ rewrite tmap_nrows; apply linear_out_nrows | exact Ho ].
Qed.

Lemma atom_message_ok (d_v d_e : nat) (bmg : BatchMolGraph R) (H_v : Tensor R) :
  graph_ok d_v d_e bmg -> nrows H_v = nrows (V bmg) ->
  exists M, atom_message bmg H_v = Ok M /\
            nrows M = nrows (V bmg) /\ ncols M = ncols H_v + d_e.
Proof.
  intros (_ & HEc & Hab & Haa & _ & _ & Fab & Faa & _ & _ & Har) Hn.
  unfold atom_message. rewrite <- Hn in Faa.
  destruct (index2_ok H_v (a2a bmg) Faa) as (A3 & HA & HAs & HA1 & HA2).
  rewrite HA; simpl.
  destruct (index2_ok (E bmg) (a2b bmg) Fab) as (B3 & HB & HBs & HB1 & HB2).
  rewrite HB; simpl.
  destruct (cat2_ok A3 B3) as (C & HC & HCs & HCd); [ congruence | congruence | ].
  rewrite HC; simpl. eexists; split; [ reflexivity | ].
  rewrite sum1_nrows. simpl. split; congruence.
Qed.

Lemma atom_round_ok (d_v d_e d_h : nat) (blk : Block R) (bmg : BatchMolGraph R)
    (H_0 : Tensor R) (st : Tensor R * nat) :
  graph_ok d_v d_e bmg -> undirected blk = false ->
  in_features (W_h blk) = d_e + d_h -> out_features (W_h blk) = d_h ->
  has_shape (nrows (V bmg)) d_h (H_0, 0) ->
  has_shape (nrows (V bmg)) d_h st ->
  exists st', atom_round blk bmg H_0 st = Ok st' /\
              has_shape (nrows (V bmg)) d_h st'.
Proof.
  intros Hg Hund Hin Hout [H0n H0c] [Hn Hc]. destruct st as [H_v c]. simpl in *.
  rewrite Hund. simpl.
  destruct (atom_message_ok H_v Hg Hn) as (M & HM & HMn & HMc).
  rewrite HM; simpl. rewrite apply_linear_ok by lia. simpl.
  unfold tadd. rewrite tzip_ok;
    [ | rewrite linear_out_nrows; congruence | simpl; congruence ].
  simpl. eexists; split; [ reflexivity | ]. unfold has_shape; simpl.
  rewrite apply_dropout_nrows, apply_dropout_ncols, tmap_nrows, tabulate_nrows.
  split; [ exact H0n | exact H0c ].
Qed.

Lemma atom_hidden_ok (d_v d_e d_h : nat) (blk : Block R) (bmg : BatchMolGraph R)
    (n : nat) :
  graph_ok d_v d_e bmg -> undirected blk = false ->
  in_features (W_i blk) = d_v -> out_features (W_i blk) = d_h ->
  in_features (W_h blk) = d_e + d_h -> out_features (W_h blk) = d_h ->
  exists st, atom_hidden blk bmg n = Ok st /\ has_shape (nrows (V bmg)) d_h st.
Proof.
  intros Hg Hund HWi Ho Hin Hout. unfold atom_hidden.
  assert (HV : ncols (V bmg) = in_features (W_i blk))
    by (rewrite HWi; apply Hg).
  rewrite apply_linear_ok by exact HV. simpl.
  apply repeat_loop_invariant.
  - intros s Hs. eapply atom_round_ok; eauto.
    split; simpl; [ apply linear_out_nrows | exact Ho ].
  - split; simpl; [ rewrite tmap_nrows; apply linear_out_nrows | exact Ho ].
Qed.

End Rounds.

Section Forward.
Context {R : Type} {SR : Scalar R} {TR : Torch R}.

Lemma finalize_ok_shape (blk : Block R) (c : nat) (M_v V : Tensor R)
    (V_d : option (Tensor R)) (T : Tensor R) :
  finalize blk c M_v V V_d = Ok T ->
  nrows T = nrows V /\ wf T /\
  match V_d with
  | None => ncols T = out_features (W_o blk)
  | Some _ => exists W, W_vd blk = Some W /\ ncols T = out_features W
  end.
Proof.
  intros Hf. destruct (finalize_inv _ _ _ _ _ Hf) as [Hn Hw].
  destruct V_d as [V_d |].
  - rewrite finalize_Some in Hf by assumption.
    unfold except_RuntimeError in Hf.
    destruct (cat1 (readout blk c M_v V) V_d) as [H_vd |] eqn:Hc; simpl in Hf.
    + apply cat1_inv in Hc as [Hcn ->].
      destruct (W_vd blk) as [W |]; simpl in Hf; [ | discriminate ].
      destruct (apply_linear W (cat1_out (readout blk c M_v V) V_d)) as [Y |] eqn:Hl;
        simpl in Hf.
      * apply apply_linear_inv in Hl as [_ ->]. inversion Hf; subst T.
        rewrite apply_dropout_nrows, linear_out_nrows, cat1_out_nrows by exact Hcn.
        split; [ now apply readout_nrows | ].
        split; [ apply apply_dropout_wf, linear_out_wf | ].
        exists W. split; [ reflexivity | now rewrite apply_dropout_ncols ].
      * destruct e; try discriminate. destruct (d_vd blk); discriminate.
    + destruct e; try discriminate. destruct (d_vd blk); discriminate.
  - rewrite finalize_None in Hf by assumption. inversion Hf; subst T.
    split; [ now apply readout_nrows | ].
    split; [ apply readout_wf | apply readout_ncols ].
Qed.

Lemma forward_finalize (blk : Block R) (bmg : BatchMolGraph R)
    (V_d : option (Tensor R)) (T : Tensor R) :
  forward blk bmg V_d = Ok T ->
  exists c M_v, finalize blk c M_v (V bmg) V_d = Ok T.
Proof.
  unfold forward, bond_forward, atom_forward. intros Hf.
  destruct (variant blk); bind_ok Hf; destruct a as [H_x c]; bind_ok Hf; eauto.
Qed.

Lemma forward_ok_shape (v : Variant) (d_v d_e d_h : nat) (b : bool) (dep : Z)
    (und : bool) (pr : Q) (act : string) (dvd : option nat) (blk : Block R)
    (bmg : BatchMolGraph R) (V_d : option (Tensor R)) (T : Tensor R) :
  init v d_v d_e d_h b dep und pr act dvd = Ok blk ->
  forward blk bmg V_d = Ok T ->
  nrows T = nrows (V bmg) /\ wf T /\
  ncols T = match V_d, dvd with
            | Some _, Some k => d_h + k
            | _, _ => d_h
            end.
Proof.
  intros Hi Hf. pose proof (init_W_o _ _ _ _ _ _ _ _ _ _ Hi) as HWo.
  pose proof (init_fields _ _ _ _ _ _ _ _ _ _ Hi) as (_ & _ & _ & _ & _ & HWvd & _).
  apply forward_finalize in Hf as (c & M_v & Hf).
  apply finalize_ok_shape in Hf as (Hn & Hwf & Hc).
  split; [ exact Hn | ]. split; [ exact Hwf | ].
  destruct V_d as [V_d |].
  - destruct Hc as (W & HW & Hc). rewrite HWvd in HW.
    destruct dvd as [k |]; [ | discriminate ].
    inversion HW; subst W. exact Hc.
  - rewrite HWo in Hc. exact Hc.
Qed.

(** [forward] returns on every batch whose index tensors fit its feature
    matrices, whatever the depth; nothing else is asked of the batch. *)
Lemma forward_total (v : Variant) (d_v d_e d_h : nat) (b : bool) (dep : Z)
    (und : bool) (pr : Q) (act : string) (dvd : option nat) (blk : Block R)
    (bmg : BatchMolGraph R) :
  init v d_v d_e d_h b dep und pr act dvd = Ok blk ->
  graph_ok d_v d_e bmg -> (v = AtomMessageBlock -> und = false) ->
  (exists T, forward blk bmg None = Ok T) /\
  (forall k V_d, dvd = Some k -> shape V_d = [nrows (V bmg); k] ->
                 exists T, forward blk bmg (Some V_d) = Ok T).
Proof.
  intros Hi Hg Hatom. pose proof (init_W_o _ _ _ _ _ _ _ _ _ _ Hi) as HWo.
  pose proof (init_fields _ _ _ _ _ _ _ _ _ _ Hi)
    as (Hv & _ & Hu & Hd & _ & HWvd & Hsetup).
  assert (Hhid : exists c M_v,
             (forall V_d, forward blk bmg V_d = finalize blk c M_v (V bmg) V_d) /\
             nrows M_v = nrows (V bmg) /\ ncols M_v = d_h).
  { unfold forward, bond_forward, atom_forward. rewrite Hv.
    destruct v; simpl in Hsetup; inversion Hsetup as [[HWi HWh HWo']].
    - destruct (bond_hidden_ok (d_h := d_h) blk (n_rounds blk) Hg)
        as ([H_e c] & Hh & Hn & Hc);
        try (rewrite ?HWi, ?HWh; reflexivity).
      simpl in Hn, Hc.
      destruct Hg as (_ & _ & Hab & _ & _ & _ & Fab & _).
      rewrite <- Hn in Fab.
      destruct (index2_ok H_e (a2b bmg) Fab) as (T3 & HT & Hs & _ & Hd2).
      exists c, (sum1 T3). split.
      + intros V_d. rewrite Hh; simpl. now rewrite HT.
      + rewrite sum1_nrows. simpl. split; congruence.
    - destruct (atom_hidden_ok (d_h := d_h) blk (n_rounds blk) Hg)
        as ([H_v c] & Hh & Hn & Hc);
        try (rewrite ?HWi, ?HWh; reflexivity).
      { rewrite Hu. now apply Hatom. }
      simpl in Hn, Hc.
      destruct Hg as (_ & _ & _ & Haa & _ & _ & _ & Faa & _).
      rewrite <- Hn in Faa.
      destruct (index2_ok H_v (a2a bmg) Faa) as (T3 & HT & Hs & _ & Hd2).
      exists c, (sum1 T3). split.
      + intros V_d. rewrite Hh; simpl. now rewrite HT.
      + rewrite sum1_nrows. simpl. split; congruence. }
  destruct Hhid as (c & M_v & Hfw & HMn & HMc).
  assert (Hin : ncols (V bmg) + ncols M_v = in_features (W_o blk)).
  { rewrite HWo; simpl. destruct Hg as (HVc & _). lia. }
  split.
  - rewrite Hfw, finalize_None by congruence. eauto.
  - intros k V_d Hk Hs. rewrite Hfw, finalize_Some by congruence.
    inversion Hs as [[Hs1 Hs2]].
    rewrite cat1_ok by (rewrite readout_nrows; congruence).
    simpl. rewrite HWvd, Hk. simpl.
    rewrite apply_linear_ok; [ simpl; eauto | ].
    simpl. rewrite readout_ncols, HWo. simpl. lia.
Qed.

(** C5. With [depth = 1] the loop body runs zero times in both variants:
    the output is [finalize] applied to the aggregation of the initial
    embedding [tau(W_i(.))] alone, and no dropout call precedes it. *)
Theorem depth_one_skips_update (blk : Block R) (bmg : BatchMolGraph R)
    (V_d : option (Tensor R)) :
  depth blk = 1%Z ->
  n_rounds blk = 0 /\
  bond_forward blk bmg V_d
  = (H_0 <- apply_linear (W_i blk) (E bmg) ;;
     M_v_k <- index2 (tmap (tau blk) H_0) (a2b bmg) ;;
     finalize blk 0 (sum1 M_v_k) (V bmg) V_d) /\
  atom_forward blk bmg V_d
  = (H_0 <- apply_linear (W_i blk) (V bmg) ;;
     M_v_k <- index2 (tmap (tau blk) H_0) (a2a bmg) ;;
     finalize blk 0 (sum1 M_v_k) (V bmg) V_d).
Proof.
  intros Hd.
  assert (Hr : n_rounds blk = 0) by (unfold n_rounds; rewrite Hd; reflexivity).
  split; [ exact Hr | ].
  unfold bond_forward, atom_forward, bond_hidden, atom_hidden. rewrite Hr.
  split.
  - destruct (apply_linear (W_i blk) (E bmg)); reflexivity.
  - destruct (apply_linear (W_i blk) (V bmg)); reflexivity.
Qed.

(** From depth 1 on, the loop makes [depth - 1] passes. *)
Lemma n_rounds_spec (blk : Block R) :
  (1 <= depth blk)%Z -> Z.of_nat (n_rounds blk) = (depth blk - 1)%Z.
Proof. unfold n_rounds. lia. Qed.

(** Every pass makes one dropout call: the counter the loop leaves is the
    number of passes made. *)
Lemma hidden_counter (blk : Block R) (bmg : BatchMolGraph R) (n : nat)
    (H_x : Tensor R) (c : nat) :
  bond_hidden blk bmg n = Ok (H_x, c) \/ atom_hidden blk bmg n = Ok (H_x, c) ->
  c = n.
Proof.
  unfold bond_hidden, atom_hidden.
  intros [Hh | Hh]; bind_ok Hh;
    eapply repeat_loop_counter in Hh; try lia;
    intros t c0 t' c' Hb; unfold bond_round, atom_round in Hb;
    repeat bind_ok Hb; now inversion Hb.
Qed.

End Forward.

(** C1. On the batch of one two-atom molecule a block with [d_v = d_h = 1]
    returns three rows of width [1], and with a fused descriptor of width
    [2] rows of width [3]: not the one row per molecule the docstring of
    [forward] documents, nor the width [d_h + d_v] or [d_h + d_v + d_vd] the
    docstring of [finalize] documents. *)
Lemma forward_rows_per_atom_width_d_h :
  n_mols two_atoms = 1 /\
  init BondMessageBlock 1 1 1 false 3 false 0 "relu" None
  = Ok (Z_block BondMessageBlock 1 1 1 false 3 false None) /\
  forward (Z_block BondMessageBlock 1 1 1 false 3 false None) two_atoms None
  = Ok (mkTensor 1 [[1]; [7]; [6]]%Z) /\
  nrows (mkTensor 1 [[1]; [7]; [6]]%Z) <> n_mols two_atoms /\
  ncols (mkTensor 1 [[1]; [7]; [6]]%Z) <> 1 + 1 /\
  forward (Z_block BondMessageBlock 1 1 1 false 3 false (Some 2)) two_atoms
    (Some (mkTensor 2 [[0; 0]; [1; 1]; [2; 2]]%Z))
  = Ok (mkTensor 3 [[0; 0; 0]; [-8; -8; -8]; [-9; -9; -9]]%Z) /\
  ncols (mkTensor 3 [[0; 0; 0]; [-8; -8; -8]; [-9; -9; -9]]%Z) <> 1 + 1 + 2.
Proof. repeat split; simpl; try discriminate; reflexivity. Qed.

(** C5, on a bond block of depth [1]. *)
Lemma depth_one_skips_update_witness :
  n_rounds (Z_block BondMessageBlock 1 1 1 false 1 false None) = 0 /\
  bond_forward (Z_block BondMessageBlock 1 1 1 false 1 false None) two_atoms None
  = (H_0 <- apply_linear (W_i (Z_block BondMessageBlock 1 1 1 false 1 false None))
             (E two_atoms) ;;
     M_v_k <- index2 (tmap relu H_0) (a2b two_atoms) ;;
     finalize (Z_block BondMessageBlock 1 1 1 false 1 false None) 0
       (sum1 M_v_k) (V two_atoms) None)%result.
Proof.
  destruct (@depth_one_skips_update Z _ _
              (Z_block BondMessageBlock 1 1 1 false 1 false None) two_atoms None
              eq_refl) as (Hr & Hb & _).
  split; [ exact Hr | exact Hb ].
Defined.

Section Validation.
Context {R : Type} {SR : Scalar R} {TR : Torch R}.

Lemma graph_ok_set_b2revb (d_v d_e : nat) (bmg : BatchMolGraph R)
    (rev : list nat) :
  graph_ok d_v d_e bmg ->
  length rev = nrows (E bmg) -> Forall (fun e => e < nrows (E bmg)) rev ->
  graph_ok d_v d_e (set_b2revb rev bmg).
Proof.
  unfold graph_ok. cbn [set_b2revb V E a2b b2a b2revb a2a].
  intros (H1 & H2 & H3 & H4 & H5 & _ & H7 & H8 & H9 & _ & H11) Hl Hr.
  repeat split; assumption.
Qed.

(** C4 (amended). Nothing is validated. Whenever a block can be
    constructed with depth [1], it can be constructed with any depth below
    [1] from the same arguments, and that block encodes exactly as the
    depth-1 block does (zero update rounds) and never reads [b2revb]. And a
    block of any depth returns on every batch whose index tensors fit its
    feature matrices (in the atom variant, with the undirected flag off):
    the batch need hold no molecule, and its [b2revb] may be any list of
    in-range edge indices of the right length, an involution or not. *)
Theorem no_precondition_validation (v : Variant) (d_v d_e d_h : nat) (b : bool)
    (dep : Z) (und : bool) (pr : Q) (act : string) (dvd : option nat)
    (blk1 : Block R) :
  (dep < 1)%Z ->
  init v d_v d_e d_h b 1 und pr act dvd = Ok blk1 ->
  (exists blk,
      init v d_v d_e d_h b dep und pr act dvd = Ok blk /\
      forall bmg V_d,
        forward blk bmg V_d = forward blk1 bmg V_d /\
        forall rev, forward blk (set_b2revb rev bmg) V_d = forward blk bmg V_d) /\
  (forall dep' blk' bmg,
      init v d_v d_e d_h b dep' und pr act dvd = Ok blk' ->
      graph_ok d_v d_e bmg -> (v = AtomMessageBlock -> und = false) ->
      (exists T, forward blk' bmg None = Ok T) /\
      forall rev,
        length rev = nrows (E bmg) ->
        Forall (fun e => e < nrows (E bmg)) rev ->
        exists T, forward blk' (set_b2revb rev bmg) None = Ok T).
Proof.
  intros Hdep Hi1. split.
  - unfold init in *.
    destruct (nn_Dropout pr) as [drop |]; simpl in *; [ | discriminate ].
    destruct (get_activation_function act) as [f |]; simpl in *; [ | discriminate ].
    destruct dvd as [k |]; destruct v; simpl in *; inversion Hi1; subst blk1;
      (eexists; split; [ reflexivity | ]);
      intros bmg V_d;
      unfold forward, bond_forward, atom_forward, bond_hidden, atom_hidden,
        n_rounds; simpl;
      replace (Z.to_nat (dep - 1)) with 0 by lia;
      split; reflexivity.
  - intros dep' blk' bmg Hi Hg Hatom. split.
    + now destruct (@forward_total _ _ _ _ _ _ _ _ _ _ _ _ _ _ _ Hi Hg Hatom)
        as [Hex _].
    + intros rev Hl Hr.
      pose proof (graph_ok_set_b2revb Hg Hl Hr) as Hg'.
      now destruct (@forward_total _ _ _ _ _ _ _ _ _ _ _ _ _ _ _ Hi Hg' Hatom)
        as [Hex _].
Qed.

End Validation.

(** C4 (amended), on a bond block of depth [0], and on a bond block of depth
    [2] with the reverse map [0; 1; 1], which is not an involution. *)
Lemma no_precondition_validation_witness :
  (exists blk,
      init BondMessageBlock 1 1 1 false 0 true 0 "relu" None = Ok blk /\
      forward blk two_atoms_bad_rev None
      = forward (Z_block BondMessageBlock 1 1 1 false 1 true None)
          two_atoms_bad_rev None) /\
  (exists T,
      forward (Z_block BondMessageBlock 1 1 1 false 2 true None)
        (set_b2revb [0; 1; 1] two_atoms) None = Ok T).
Proof.
  assert (Hi : init BondMessageBlock 1 1 1 false 1 true 0 "relu" None
               = Ok (Z_block BondMessageBlock 1 1 1 false 1 true None))
    by reflexivity.
  assert (Hi2 : init BondMessageBlock 1 1 1 false 2 true 0 "relu" None
                = Ok (Z_block BondMessageBlock 1 1 1 false 2 true None))
    by reflexivity.
  assert (Hg : graph_ok 1 1 two_atoms)
    by (unfold graph_ok; simpl; repeat split; repeat constructor).
  destruct (@no_precondition_validation Z _ _ _ _ _ _ _ 0%Z _ _ _ _ _ eq_refl Hi)
    as ((blk & Hb & Hfw) & Hany).
  split.
  - exists blk. split; [ exact Hb | ]. apply Hfw.
  - destruct (Hany 2%Z _ two_atoms Hi2 Hg) as [_ Hrev]; [ discriminate | ].
    apply Hrev; [ reflexivity | ]. simpl. repeat constructor.
Defined.

(** C4, as stated, fails: a bond block of depth [0] is constructed, and it
    encodes the empty batch and a batch whose [b2revb] is not an involution
    ([b2revb[b2revb[2]] = 1]) down to the numeric result, as does a block of
    depth [2], whose one update round reads [b2revb]. *)
Lemma depth_zero_block_encodes :
  init BondMessageBlock 1 1 1 false 0 true 0 "relu" None
  = Ok (Z_block BondMessageBlock 1 1 1 false 0 true None) /\
  forward (Z_block BondMessageBlock 1 1 1 false 0 true None) empty_batch None
  = Ok (mkTensor 1 [[1]]%Z) /\
  nth (nth 2 (b2revb two_atoms_bad_rev) 0) (b2revb two_atoms_bad_rev) 0 <> 2 /\
  forward (Z_block BondMessageBlock 1 1 1 false 0 true None) two_atoms_bad_rev None
  = Ok (mkTensor 1 [[1]; [7]; [6]]%Z) /\
  forward (Z_block BondMessageBlock 1 1 1 false 2 false None) two_atoms_bad_rev None
  = Ok (mkTensor 1 [[1]; [7]; [8]]%Z).
Proof. repeat split; simpl; try discriminate; reflexivity. Qed.

(** C8. On the chain of three atoms the undirected atom block indexes the
    four-row atom state with the five-entry bond reverse map and raises
    [IndexError]; the same block with the flag off, and the undirected bond
    block, encode the batch. *)
Theorem atom_undirected_uses_bond_reverse_map :
  forward (Z_block AtomMessageBlock 1 1 1 false 2 true None) chain3 None
  = Raise IndexError /\
  nrows (V chain3) = 4 /\ b2revb chain3 = [0; 2; 1; 4; 3] /\
  (exists T, forward (Z_block AtomMessageBlock 1 1 1 false 2 false None) chain3 None
             = Ok T) /\
  (exists T, forward (Z_block BondMessageBlock 1 1 1 false 2 true None) chain3 None
             = Ok T).
Proof. repeat split; eexists; reflexivity. Qed.

Section Message.
Context {R : Type} {SR : Scalar R}.

Lemma bshape_index (a b n e : nat) :
  bshape a b = Some n -> e < a -> e < b ->
  e < n /\ bidx a e = e /\ bidx b e = e.
Proof.
  unfold bshape, bidx. intros Hb Ha Hlt.
  destruct (Nat.eqb_spec a b) as [-> | Hab].
  - inversion Hb; subst. destruct (Nat.eqb_spec n 1); repeat split; lia.
  - destruct (Nat.eqb_spec a 1) as [-> | Ha1].
    + inversion Hb; subst. destruct (Nat.eqb_spec n 1); repeat split; lia.
    + destruct (Nat.eqb_spec b 1) as [-> | Hb1]; [ | discriminate ].
      inversion Hb; subst. repeat split; lia.
Qed.

Lemma tabulate_row (n m : nat) (g : nat -> nat -> R) (e : nat) :
  e < n -> nth_error (rows (tabulate n m g)) e = Some (map (g e) (seq 0 m)).
Proof.
  intros He. unfold tabulate; simpl.
  rewrite nth_error_map, nth_error_nth' with (d := 0) by (now rewrite length_seq).
  simpl. now rewrite seq_nth.
Qed.

Lemma tabulate_ext (n m : nat) (g g' : nat -> nat -> R) :
  (forall i j, i < n -> j < m -> g i j = g' i j) -> tabulate n m g = tabulate n m g'.
Proof.
  intros Hg. unfold tabulate. f_equal.
  apply map_ext_in. intros i Hi. apply in_seq in Hi.
  apply map_ext_in. intros j Hj. apply in_seq in Hj.
  apply Hg; lia.
Qed.

Lemma row_inv (T : Tensor R) (i : nat) (r : list R) :
  row T i = Ok r -> nth_error (rows T) i = Some r.
Proof.
  unfold row. destruct (nth_error (rows T) i); now inversion 1.
Qed.

Lemma bget_row (T : Tensor R) (e j : nat) (r : list R) :
  nth_error (rows T) e = Some r -> bidx (nrows T) e = e ->
  bget T e j = nth (bidx (ncols T) j) r zero.
Proof.
  intros Hr He. unfold bget. rewrite He.
  now rewrite (nth_error_nth _ _ _ Hr).
Qed.

(** C3 (amended). The message of a directed edge [e] is the sum of the
    hidden states of the edges listed in [a2b] for the atom [b2a[e]], which
    is the origin atom of [e], minus the state of the reverse edge
    [H[b2revb[e]]]. *)
Theorem bond_message_row (bmg : BatchMolGraph R) (H_e M : Tensor R)
    (e a r : nat) (nb : list nat) :
  bond_message bmg H_e = Ok M ->
  nth_error (b2a bmg) e = Some a ->
  nth_error (entries (a2b bmg)) a = Some nb ->
  nth_error (b2revb bmg) e = Some r ->
  exists hs hr,
    mapM (row H_e) nb = Ok hs /\ row H_e r = Ok hr /\
    nth_error (rows M) e
    = Some (map (fun j => sub (nth j (vsum (ncols H_e) hs) zero) (nth j hr zero))
                (seq 0 (ncols H_e))).
Proof.
  unfold bond_message. intros Hm Ha Hnb Hr.
  bind_ok_as Hm H2. rename a0 into T3.
  bind_ok_as Hm HMe. rename a0 into Me.
  bind_ok_as Hm HHr. rename a0 into Hrev.
  apply index2_inv in H2 as (_ & _ & Hd2 & H2).
  apply index_select_inv in HMe as (HMn & HMc & HMe).
  apply index_select_inv in HHr as (HRn & HRc & HHr).
  destruct (mapM_nth_error _ _ _ H2 Hnb) as (hs & Hhs & Hslab).
  destruct (mapM_nth_error _ _ _ HMe Ha) as (me & Hme & Hmerow).
  destruct (mapM_nth_error _ _ _ HHr Hr) as (hr & Hhr & Hhrrow).
  apply row_inv in Hme. unfold sum1 in Hme; simpl in Hme.
  rewrite nth_error_map, Hslab in Hme. simpl in Hme. inversion Hme; subst me.
  exists hs, hr. split; [ exact Hhs | ]. split; [ exact Hhr | ].
  unfold tsub in Hm. apply tzip_inv in Hm as (n & m & Hbn & Hbm & ->).
  simpl in HMc. rewrite HMc, HRc, Hd2, bshape_refl in Hbm. inversion Hbm; subst m.
  assert (He1 : e < nrows Me)
    by (rewrite HMn; apply nth_error_Some; congruence).
  assert (He2 : e < nrows Hrev)
    by (rewrite HRn; apply nth_error_Some; congruence).
  destruct (@bshape_index _ _ _ _ Hbn He1 He2) as (Hen & Hb1 & Hb2).
  rewrite tabulate_row by exact Hen. f_equal.
  apply map_ext_in. intros j Hj. apply in_seq in Hj.
  rewrite (@bget_row Me e j _ Hmerow Hb1), (@bget_row Hrev e j _ Hhrrow Hb2).
  rewrite HMc, HRc, Hd2.
  assert (Hbj : bidx (ncols H_e) j = j)
    by (unfold bidx; destruct (Nat.eqb_spec (ncols H_e) 1); lia).
  now rewrite Hbj.
Qed.

End Message.

(** C3 (amended), on edge 2 (2 -> 1) of the chain: its origin atom 2 has the
    incoming edges 1 and 4, its reverse is edge 1. *)
Lemma bond_message_row_witness :
  exists hs hr,
    mapM (row (E chain3)) [1; 4] = Ok hs /\ row (E chain3) 1 = Ok hr /\
    nth_error (rows (mkTensor 1 [[0]; [0]; [1000]; [1]; [0]]%Z)) 2
    = Some (map (fun j => sub (nth j (vsum 1 hs) zero) (nth j hr zero)) (seq 0 1)).
Proof.
  apply (@bond_message_row Z _ chain3 (E chain3)
           (mkTensor 1 [[0]; [0]; [1000]; [1]; [0]]%Z) 2 2 1 [1; 4]);
    reflexivity.
Defined.

(** C3, as stated, fails: on the chain, the message of edge 1 (1 -> 2) is
    [0], the sum over the incoming edges of its origin atom 1 minus its
    reverse; the sum over the incoming edges 1 and 4 of its destination atom
    2 minus its reverse would be [991]. *)
Lemma bond_message_sums_at_origin :
  nth_error (b2a chain3) 1 = Some 1 /\
  index_nat (b2a chain3) (b2revb chain3) = Ok [0; 2; 1; 3; 2] /\
  bond_message chain3 (E chain3)
  = Ok (mkTensor 1 [[0]; [0]; [1000]; [1]; [0]]%Z) /\
  bond_message_at_destination chain3 (E chain3)
  = Ok (mkTensor 1 [[0]; [991]; [9]; [-900]; [901]]%Z) /\
  bond_message chain3 (E chain3) <> bond_message_at_destination chain3 (E chain3).
Proof. repeat split; try reflexivity. discriminate. Qed.

Section TwoAtoms.
Context {R : Type} {SR : Scalar R} {TR : Torch R}.

Hypothesis add_zero_l : forall x : R, add zero x = x.
Hypothesis sub_diag : forall x : R, sub x x = zero.

Lemma vadd_zero_l (d : nat) (h : list R) :
  length h = d -> vadd (repeat zero d) h = h.
Proof.
  intros <-. induction h as [| x h IH]; simpl; [ reflexivity | ].
  unfold vadd in *. simpl. now rewrite add_zero_l, IH.
Qed.

Lemma symmetrize_wf (bmg : BatchMolGraph R) (H_x H' : Tensor R) :
  symmetrize bmg H_x = Ok H' -> wf H'.
Proof.
  unfold symmetrize. intros Hs. bind_ok Hs. bind_ok_as Hs Hz.
  apply tzip_inv in Hz as (n & m & _ & _ & ->). inversion Hs.
  apply tmap_wf, tabulate_wf.
Qed.

(** On the graph of one bond every message is zero, whatever the hidden
    state: the only incoming edge at the origin of an edge is its reverse. *)
Lemma one_bond_message_zero (bmg : BatchMolGraph R) (H_e : Tensor R) :
  a2b bmg = mkIndex2 1 [[0]; [2]; [1]] ->
  b2a bmg = [0; 1; 2] -> b2revb bmg = [0; 2; 1] ->
  wf H_e -> nrows H_e = 3 ->
  bond_message bmg H_e = Ok (zeros 3 (ncols H_e)).
Proof.
  intros Hab Hba Hrev Hwf Hn. destruct H_e as [d rs].
  unfold nrows in Hn; simpl in Hn.
  destruct rs as [| h0 [| h1 [| h2 [| h3 rs]]]]; try discriminate.
  unfold wf in Hwf; simpl in Hwf.
  pose proof (Forall_inv Hwf) as L0.
  pose proof (Forall_inv (Forall_inv_tail Hwf)) as L1.
  pose proof (Forall_inv (Forall_inv_tail (Forall_inv_tail Hwf))) as L2.
  simpl in L0, L1, L2.
  unfold bond_message, index2, index_select. rewrite Hab, Hba, Hrev.
  cbn [entries arity mapM row rows ncols nth_error bind sum1 slabs dim2 map
         vsum fold_left].
  rewrite !vadd_zero_l by assumption.
  unfold tsub. rewrite tzip_ok by reflexivity.
  f_equal. unfold zeros. apply tabulate_ext. intros i j _ _. apply sub_diag.
Qed.

(** C6. On a batch that holds one molecule of two atoms and one bond, the
    message computed in the first update round of the bond variant is zero
    on every edge, with or without symmetrisation: the subtraction removes
    the whole of [H[reverse(e)]], the only term the aggregation gathered. *)
Theorem first_round_message_excludes_reverse (blk : Block R) (bmg : BatchMolGraph R) :
  a2b bmg = mkIndex2 1 [[0]; [2]; [1]] ->
  b2a bmg = [0; 1; 2] -> b2revb bmg = [0; 2; 1] ->
  nrows (E bmg) = 3 -> ncols (E bmg) = in_features (W_i blk) ->
  exists H_0 H_e,
    apply_linear (W_i blk) (E bmg) = Ok H_0 /\
    (if undirected blk then symmetrize bmg (tmap (tau blk) H_0)
     else Ok (tmap (tau blk) H_0)) = Ok H_e /\
    bond_message bmg H_e = Ok (zeros 3 (out_features (W_i blk))).
Proof.
  intros Hab Hba Hrev Hn Hc.
  exists (linear_out (W_i blk) (E bmg)).
  set (H_1 := tmap (tau blk) (linear_out (W_i blk) (E bmg))).
  assert (Hn1 : nrows H_1 = 3)
    by (unfold H_1; now rewrite tmap_nrows, linear_out_nrows).
  assert (Hw1 : wf H_1) by (apply tmap_wf, linear_out_wf).
  assert (Hc1 : ncols H_1 = out_features (W_i blk)) by reflexivity.
  assert (Hsym : exists H_e,
             (if undirected blk then symmetrize bmg H_1 else Ok H_1) = Ok H_e /\
             wf H_e /\ nrows H_e = 3 /\ ncols H_e = out_features (W_i blk)).
  { destruct (undirected blk).
    - destruct (symmetrize_ok bmg H_1) as (H' & Hs & Hn' & Hc').
      + rewrite Hrev, Hn1. reflexivity.
      + rewrite Hrev, Hn1. repeat constructor.
      + exists H'. split; [ exact Hs | ].
        split; [ eapply symmetrize_wf; eauto | ]. split; congruence.
    - exists H_1. now repeat split. }
  destruct Hsym as (H_e & Hs & Hwf & Hne & Hce).
  exists H_e. split; [ now apply apply_linear_ok | ].
  split; [ exact Hs | ].
  rewrite <- Hce. now apply one_bond_message_zero.
Qed.

End TwoAtoms.

(** C6, on the undirected bond block and the two-atom batch. *)
Lemma first_round_message_excludes_reverse_witness :
  exists H_0 H_e,
    apply_linear (W_i (Z_block BondMessageBlock 1 1 1 false 2 true None))
      (E two_atoms) = Ok H_0 /\
    symmetrize two_atoms (tmap relu H_0) = Ok H_e /\
    bond_message two_atoms H_e = Ok (zeros 3 1).
Proof.
  apply (@first_round_message_excludes_reverse Z Z_Scalar
           Z.add_0_l Z.sub_diag
           (Z_block BondMessageBlock 1 1 1 false 2 true None) two_atoms);
    reflexivity.
Defined.

Section Sentinel.
Context {R : Type} {SR : Scalar R} {TR : Torch R}.

Hypothesis add_zero_r : forall x : R, add x zero = x.
Hypothesis sub_zero_zero : sub zero zero = zero.
Hypothesis mul_zero_l : forall x : R, mul zero x = zero.
Hypothesis half_zero : half zero = zero.
Hypothesis rescale_zero : forall q : Q, rescale q zero = zero.

Lemma map_zero_seq (k m : nat) : map (fun _ : nat => zero) (seq k m) = repeat zero m.
Proof. rewrite map_const, length_seq. reflexivity. Qed.

Lemma dot_zero (n d : nat) (w : nat -> R) : dot n (repeat zero d) w = zero.
Proof.
  unfold dot. generalize (seq 0 n) as l.
  induction l as [| k l IH]; simpl; [ reflexivity | ].
  now rewrite nth_repeat, mul_zero_l, add_zero_r.
Qed.

Lemma linear_row_zero (L : Linear R) (d : nat) :
  bias L = None -> linear_row L (repeat zero d) = repeat zero (out_features L).
Proof.
  intros Hb. unfold linear_row. rewrite Hb.
  rewrite <- (map_zero_seq 0 (out_features L)). apply map_ext. intros j. apply dot_zero.
Qed.

Lemma linear_out_sentinel (L : Linear R) (X : Tensor R) :
  bias L = None -> sentinel_zero X -> sentinel_zero (linear_out L X).
Proof.
  unfold sentinel_zero, linear_out; cbn [rows ncols]. intros Hb HX.
  rewrite nth_error_map, HX. simpl. now rewrite linear_row_zero.
Qed.

Lemma tmap_sentinel (f : R -> R) (T : Tensor R) :
  f zero = zero -> sentinel_zero T -> sentinel_zero (tmap f T).
Proof.
  unfold sentinel_zero, tmap; cbn [rows ncols]. intros Hf HT.
  rewrite nth_error_map, HT. simpl. now rewrite map_repeat, Hf.
Qed.

Lemma mapi_from_zero (g : nat -> R -> R) (k d : nat) :
  (forall j, g j zero = zero) -> mapi_from k g (repeat zero d) = repeat zero d.
Proof.
  intros Hg. revert k. induction d as [| d IH]; intros k; simpl; [ reflexivity | ].
  now rewrite Hg, IH.
Qed.

Lemma apply_dropout_sentinel (D : Dropout) (c : nat) (T : Tensor R) :
  sentinel_zero T -> sentinel_zero (apply_dropout D c T).
Proof.
  intros HT. unfold apply_dropout.
  destruct (negb (training D) || Qeq_bool (p D) 0); [ exact HT | ].
  destruct (Qeq_bool (p D) 1).
  - apply tmap_sentinel; [ apply mul_zero_l | exact HT ].
  - unfold sentinel_zero in *; simpl.
    destruct (rows T) as [| r0 rs]; [ discriminate | ].
    simpl in HT. inversion HT; subst r0. unfold mapi; simpl. f_equal.
    apply mapi_from_zero. intros j. destruct (keep c 0 j); auto.
Qed.

Lemma sentinel_nrows (T : Tensor R) : sentinel_zero T -> 1 <= nrows T.
Proof.
  unfold sentinel_zero, nrows. destruct (rows T); [ discriminate | simpl; lia ].
Qed.

Lemma bget_sentinel (T : Tensor R) (j : nat) : sentinel_zero T -> bget T 0 j = zero.
Proof.
  unfold sentinel_zero, bget. intros HT.
  assert (Hb : bidx (nrows T) 0 = 0) by (unfold bidx; now destruct (nrows T =? 1)).
  rewrite Hb, (nth_error_nth _ _ _ HT). apply nth_repeat.
Qed.

Lemma tzip_sentinel (f : R -> R -> R) (A B C : Tensor R) :
  f zero zero = zero -> sentinel_zero A -> sentinel_zero B ->
  tzip f A B = Ok C -> sentinel_zero C /\ wf C.
Proof.
  intros Hf HA HB Hz. apply tzip_inv in Hz as (n & m & Hn & _ & ->).
  split; [ | apply tabulate_wf ].
  apply sentinel_nrows in HA as HAn. apply sentinel_nrows in HB as HBn.
  assert (Hpos : 0 < n).
  { unfold bshape in Hn.
    destruct (nrows A =? nrows B); [ inversion Hn; lia | ].
    destruct (nrows A =? 1); [ inversion Hn; lia | ].
    destruct (nrows B =? 1); [ inversion Hn; lia | discriminate ]. }
  unfold sentinel_zero. rewrite tabulate_row by exact Hpos. simpl ncols.
  f_equal. rewrite <- (map_zero_seq 0 m). apply map_ext. intros j.
  now rewrite !bget_sentinel.
Qed.

Lemma index_select_sentinel (T T' : Tensor R) (idx : list nat) :
  nth_error idx 0 = Some 0 -> sentinel_zero T ->
  index_select T idx = Ok T' -> sentinel_zero T'.
Proof.
  intros Hidx HT Hs. apply index_select_inv in Hs as (_ & Hc & Hm).
  destruct (mapM_nth_error _ _ _ Hm Hidx) as (r & Hr & Hr').
  apply row_inv in Hr. unfold sentinel_zero in *. rewrite Hc, Hr'. congruence.
Qed.

Lemma vadd_zero_zero (d : nat) : vadd (repeat zero d) (repeat zero d) = repeat zero d.
Proof.
  unfold vadd. induction d as [| d IH]; simpl; [ reflexivity | ].
  now rewrite add_zero_r, IH.
Qed.

Lemma vsum_zero (d : nat) (l : list (list R)) :
  Forall (eq (repeat zero d)) l -> vsum d l = repeat zero d.
Proof.
  unfold vsum. induction 1 as [| r l <- _ IH]; simpl; [ reflexivity | ].
  now rewrite vadd_zero_zero.
Qed.

Lemma index2_sentinel (T : Tensor R) (idx : Index2) (T3 : Tensor3 R) :
  pad_row idx -> sentinel_zero T -> index2 T idx = Ok T3 ->
  exists slab, nth_error (slabs T3) 0 = Some slab /\
               Forall (eq (repeat zero (ncols T))) slab.
Proof.
  intros (nb & Hnb & Hpad) HT Hi. apply index2_inv in Hi as (_ & _ & _ & Hm).
  destruct (mapM_nth_error _ _ _ Hm Hnb) as (slab & Hslab & Hs0).
  exists slab. split; [ exact Hs0 | ].
  eapply mapM_Forall; [ | exact Hslab ].
  intros a r Ha Hr. simpl in Hr.
  rewrite Forall_forall in Hpad. rewrite <- (Hpad a Ha) in Hr.
  apply row_inv in Hr. unfold sentinel_zero in HT. congruence.
Qed.

Lemma sum1_sentinel (T3 : Tensor3 R) (slab : list (list R)) :
  nth_error (slabs T3) 0 = Some slab ->
  Forall (eq (repeat zero (dim2 T3))) slab -> sentinel_zero (sum1 T3).
Proof.
  intros Hs Hz. unfold sentinel_zero, sum1; cbn [rows ncols].
  rewrite nth_error_map, Hs. simpl. now rewrite vsum_zero.
Qed.

Lemma add_zero_zero : add zero zero = zero.
Proof. apply add_zero_r. Qed.

Lemma symmetrize_sentinel (bmg : BatchMolGraph R) (H_x H' : Tensor R) :
  nth_error (b2revb bmg) 0 = Some 0 -> sentinel_zero H_x ->
  symmetrize bmg H_x = Ok H' -> sentinel_zero H' /\ wf H'.
Proof.
  intros Hrev HH Hs. unfold symmetrize in Hs.
  bind_ok_as Hs Hi. bind_ok_as Hs Hz. inversion Hs; subst H'.
  apply index_select_sentinel in Hi; [ | assumption | assumption ].
  apply tzip_sentinel in Hz as [Hz Hwf]; [ | apply add_zero_zero | assumption | assumption ].
  split; [ now apply tmap_sentinel | now apply tmap_wf ].
Qed.

Lemma bond_message_sentinel (bmg : BatchMolGraph R) (H_e M : Tensor R) :
  sentinel_graph bmg -> sentinel_zero H_e ->
  bond_message bmg H_e = Ok M -> sentinel_zero M.
Proof.
  intros (_ & _ & Hab & _ & Hba & Hrev) HH Hm. unfold bond_message in Hm.
  bind_ok_as Hm H2. bind_ok_as Hm HMe. bind_ok_as Hm HHr.
  destruct (index2_sentinel Hab HH H2) as (slab & Hslab & Hz).
  apply index2_inv in H2 as (_ & _ & Hd2 & _). rewrite <- Hd2 in Hz.
  pose proof (sum1_sentinel _ Hslab Hz) as Hsum.
  apply index_select_sentinel in HMe; [ | assumption | assumption ].
  apply index_select_sentinel in HHr; [ | assumption | assumption ].
  now apply tzip_sentinel in Hm as [Hm _].
Qed.

Lemma zipWith_head {A B C : Type} (f : A -> B -> C) (l : list A) (l' : list B)
    (a : A) (b : B) :
  nth_error l 0 = Some a -> nth_error l' 0 = Some b ->
  nth_error (zipWith f l l') 0 = Some (f a b).
Proof.
  destruct l, l'; simpl; try discriminate. now intros [= ->] [= ->].
Qed.

Lemma atom_message_sentinel (bmg : BatchMolGraph R) (H_v M : Tensor R) :
  sentinel_graph bmg -> sentinel_zero H_v ->
  atom_message bmg H_v = Ok M -> sentinel_zero M.
Proof.
  intros (_ & HE & Hab & Haa & _) HH Hm. unfold atom_message in Hm.
  bind_ok_as Hm HA. bind_ok_as Hm HB. bind_ok_as Hm HC. inversion Hm; subst M.
  destruct (index2_sentinel Haa HH HA) as (sa & Hsa & Hza).
  destruct (index2_sentinel Hab HE HB) as (sb & Hsb & Hzb).
  apply index2_inv in HA as (_ & _ & HdA & _).
  apply index2_inv in HB as (_ & _ & HdB & _).
  unfold cat2 in HC.
  destruct ((length (slabs a) =? length (slabs a0)) && (dim1 a =? dim1 a0));
    [ | discriminate ].
  inversion HC; subst a1.
  eapply sum1_sentinel; cbn [slabs dim2].
  - apply zipWith_head; eassumption.
  - rewrite HdA, HdB.
    eapply zipWith_Forall; [ | exact Hza | exact Hzb ].
    intros x y <- <-. apply repeat_app.
Qed.

(** The UPDATE step, shared by the two loops. *)
Lemma update_sentinel (blk : Block R) (c : nat) (H_0 M Y Sum : Tensor R) :
  bias (W_h blk) = None -> tau blk zero = zero ->
  sentinel_zero H_0 -> sentinel_zero M ->
  apply_linear (W_h blk) M = Ok Y -> tadd H_0 Y = Ok Sum ->
  sentinel_zero (apply_dropout (dropout blk) c (tmap (tau blk) Sum)) /\
  wf (apply_dropout (dropout blk) c (tmap (tau blk) Sum)).
Proof.
  intros Hb Htau H0 HM HY HS.
  apply apply_linear_inv in HY as [_ ->].
  apply tzip_sentinel in HS as [HS Hwf];
    [ | apply add_zero_zero | assumption | now apply linear_out_sentinel ].
  split.
  - now apply apply_dropout_sentinel, tmap_sentinel.
  - now apply apply_dropout_wf, tmap_wf.
Qed.

Lemma bond_round_sentinel (blk : Block R) (bmg : BatchMolGraph R)
    (H_0 : Tensor R) (st st' : Tensor R * nat) :
  bias (W_h blk) = None -> tau blk zero = zero -> sentinel_graph bmg ->
  sentinel_zero H_0 -> padded st ->
  bond_round blk bmg H_0 st = Ok st' -> padded st'.
Proof.
  intros Hb Htau Hg H0 [HH _] Hr. destruct st as [H_e c]. simpl in HH.
  unfold bond_round in Hr.
  bind_ok_as Hr Hsym. bind_ok_as Hr Hm. bind_ok_as Hr HY. bind_ok_as Hr HS.
  inversion Hr; subst st'. unfold padded; simpl.
  eapply update_sentinel with (M := a0) (Y := a1);
    [ exact Hb | exact Htau | exact H0 | | exact HY | exact HS ].
  eapply bond_message_sentinel; [ exact Hg | | exact Hm ].
  destruct (undirected blk).
  - destruct Hg as (_ & _ & _ & _ & _ & Hrev).
    now destruct (symmetrize_sentinel bmg Hrev HH Hsym).
  - now inversion Hsym; subst.
Qed.

Lemma atom_round_sentinel (blk : Block R) (bmg : BatchMolGraph R)
    (H_0 : Tensor R) (st st' : Tensor R * nat) :
  bias (W_h blk) = None -> tau blk zero = zero -> sentinel_graph bmg ->
  sentinel_zero H_0 -> padded st ->
  atom_round blk bmg H_0 st = Ok st' -> padded st'.
Proof.
  intros Hb Htau Hg H0 [HH _] Hr. destruct st as [H_v c]. simpl in HH.
  unfold atom_round in Hr.
  bind_ok_as Hr Hsym. bind_ok_as Hr Hm. bind_ok_as Hr HY. bind_ok_as Hr HS.
  inversion Hr; subst st'. unfold padded; simpl.
  eapply update_sentinel with (M := a0) (Y := a1);
    [ exact Hb | exact Htau | exact H0 | | exact HY | exact HS ].
  eapply atom_message_sentinel; [ exact Hg | | exact Hm ].
  destruct (undirected blk).
  - destruct Hg as (_ & _ & _ & _ & _ & Hrev).
    now destruct (symmetrize_sentinel bmg Hrev HH Hsym).
  - now inversion Hsym; subst.
Qed.

Lemma vadd_zero_r (d : nat) (acc : list R) :
  length acc = d -> vadd acc (repeat zero d) = acc.
Proof.
  intros <-. unfold vadd. induction acc as [| x acc IH]; simpl; [ reflexivity | ].
  now rewrite add_zero_r, IH.
Qed.

Lemma row_wf (T : Tensor R) (i : nat) (r : list R) :
  wf T -> row T i = Ok r -> length r = ncols T.
Proof.
  intros Hwf Hr. apply row_inv, nth_error_In in Hr.
  unfold wf in Hwf. rewrite Forall_forall in Hwf. now apply Hwf.
Qed.

Lemma fold_vadd_unpad (T : Tensor R) (nb : list nat) (hs : list (list R))
    (acc : list R) :
  sentinel_zero T -> wf T -> length acc = ncols T ->
  mapM (row T) nb = Ok hs ->
  exists hs', mapM (row T) (unpad nb) = Ok hs' /\
              fold_left vadd hs' acc = fold_left vadd hs acc.
Proof.
  intros HT Hwf. revert hs acc.
  induction nb as [| i nb IH]; intros hs acc Hacc Hm; simpl in Hm.
  - inversion Hm; subst. exists []. now split.
  - bind_ok_as Hm Hr. bind_ok_as Hm Hrest. inversion Hm; subst hs.
    simpl. destruct (Nat.eqb_spec i 0) as [-> | Hi]; simpl.
    + apply row_inv in Hr. unfold sentinel_zero in HT.
      assert (a = repeat zero (ncols T)) by congruence. subst a.
      rewrite vadd_zero_r by exact Hacc. now apply IH.
    + rewrite Hr; simpl.
      destruct (IH a0 (vadd acc a)) as (hs' & Hhs' & Hf); [ | reflexivity | ].
      * unfold vadd. rewrite zipWith_length, Hacc, (row_wf _ Hwf Hr). lia.
      * rewrite Hhs'; simpl. eauto.
Qed.

(** Both loops keep the sentinel row zero and the rows of full width. *)
Lemma hidden_padded (blk : Block R) (bmg : BatchMolGraph R) (n : nat)
    (st : Tensor R * nat) :
  bias (W_i blk) = None -> bias (W_h blk) = None -> tau blk zero = zero ->
  sentinel_graph bmg ->
  bond_hidden blk bmg n = Ok st \/ atom_hidden blk bmg n = Ok st ->
  padded st.
Proof.
  intros Hbi Hbh Htau Hg Hhid. pose proof Hg as (HV & HE & _).
  unfold bond_hidden, atom_hidden in Hhid.
  destruct Hhid as [Hh | Hh]; bind_ok_as Hh HL;
    apply apply_linear_inv in HL as [_ ->].
  - eapply (@repeat_loop_preserves _ padded); [ | | exact Hh ].
    + intros s s'. apply bond_round_sentinel; auto.
      now apply linear_out_sentinel.
    + split; simpl.
      * apply tmap_sentinel; [ exact Htau | now apply linear_out_sentinel ].
      * apply tmap_wf, linear_out_wf.
  - eapply (@repeat_loop_preserves _ padded); [ | | exact Hh ].
    + intros s s'. apply atom_round_sentinel; auto.
      now apply linear_out_sentinel.
    + split; simpl.
      * apply tmap_sentinel; [ exact Htau | now apply linear_out_sentinel ].
      * apply tmap_wf, linear_out_wf.
Qed.

(** C7 (amended). When [W_i] and [W_h] carry no bias, the activation maps
    zero to zero and the batch follows the sentinel convention, row 0 of the
    hidden state is all zero after every number of update rounds, in both
    variants; and then, in the update rounds and in the final aggregation,
    the sum of the rows gathered through a padded neighbour list is the sum
    over the list without its padding entries. *)
Theorem sentinel_row_stays_zero (blk : Block R) (bmg : BatchMolGraph R) (n : nat)
    (H_x : Tensor R) (c : nat) :
  bias (W_i blk) = None -> bias (W_h blk) = None -> tau blk zero = zero ->
  sentinel_graph bmg ->
  bond_hidden blk bmg n = Ok (H_x, c) \/ atom_hidden blk bmg n = Ok (H_x, c) ->
  sentinel_zero H_x /\
  forall nb hs,
    mapM (row H_x) nb = Ok hs ->
    exists hs', mapM (row H_x) (unpad nb) = Ok hs' /\
                vsum (ncols H_x) hs' = vsum (ncols H_x) hs.
Proof.
  intros Hbi Hbh Htau Hg Hhid.
  destruct (hidden_padded blk n Hbi Hbh Htau Hg Hhid) as [Hs Hwf].
  simpl in Hs, Hwf. split; [ exact Hs | ].
  intros nb hs Hm. unfold vsum.
  apply fold_vadd_unpad; auto. apply repeat_length.
Qed.

End Sentinel.

(** C7 (amended), on the atom block without bias and the chain, after two
    update rounds; the padded list is that of atom 1. *)
Lemma sentinel_row_stays_zero_witness :
  sentinel_zero (mkTensor 1 [[0]; [1018]; [1121]; [1110]]%Z) /\
  exists hs',
    mapM (row (mkTensor 1 [[0]; [1018]; [1121]; [1110]]%Z)) (unpad [2; 0]) = Ok hs' /\
    vsum 1 hs' = vsum 1 [[1121]; [0]]%Z.
Proof.
  assert (Hsg : sentinel_graph chain3).
  { unfold sentinel_graph, pad_row, sentinel_zero; simpl.
    repeat split; try reflexivity;
      (exists [0; 0]; split; [ reflexivity | repeat constructor ]). }
  destruct (@sentinel_row_stays_zero Z Z_Scalar Z_Torch
              Z.add_0_r eq_refl Z.mul_0_l eq_refl (fun q => eq_refl)
              (Z_block AtomMessageBlock 1 1 1 false 3 false None) chain3 2
              (mkTensor 1 [[0]; [1018]; [1121]; [1110]]%Z) 2
              eq_refl eq_refl eq_refl Hsg (or_intror eq_refl)) as [Hs Hp].
  split; [ exact Hs | ].
  apply (Hp [2; 0] [[1121]; [0]]%Z). reflexivity.
Defined.

(** C7, as stated, fails: with [bias = True] the sentinel row of the hidden
    state of the bond block is [3] after one update round on the chain, and
    the sum gathered through the padded list [2; 0] of atom 1 is [1016],
    while the sum over its only edge is [1013]. *)
Lemma biased_sentinel_row_nonzero :
  init BondMessageBlock 1 1 1 true 3 false 0 "relu" None
  = Ok (Z_block BondMessageBlock 1 1 1 true 3 false None) /\
  sentinel_graph chain3 /\
  bond_hidden (Z_block BondMessageBlock 1 1 1 true 3 false None) chain3 1
  = Ok (mkTensor 1 [[3]; [4]; [1013]; [104]; [1003]]%Z, 1) /\
  ~ sentinel_zero (mkTensor 1 [[3]; [4]; [1013]; [104]; [1003]]%Z) /\
  (hs <- mapM (row (mkTensor 1 [[3]; [4]; [1013]; [104]; [1003]]%Z)) [2; 0] ;;
   Ok (vsum 1 hs)) = Ok [1016%Z] /\
  (hs <- mapM (row (mkTensor 1 [[3]; [4]; [1013]; [104]; [1003]]%Z)) (unpad [2; 0]) ;;
   Ok (vsum 1 hs)) = Ok [1013%Z].
Proof.
  split; [ reflexivity | ]. split.
  { unfold sentinel_graph, pad_row, sentinel_zero; simpl.
    repeat split; try reflexivity;
      (exists [0; 0]; split; [ reflexivity | repeat constructor ]). }
  split; [ reflexivity | ]. split; [ | split; reflexivity ].
  unfold sentinel_zero; simpl. discriminate.
Qed.

(** * Further properties of the message-passing blocks *)

Lemma bidx_lt (n e : nat) : e < n -> bidx n e = e.
Proof. unfold bidx. destruct (Nat.eqb_spec n 1); lia. Qed.

Lemma repeat_loop_ext {T : Type} (f g : T -> result T) :
  (forall s, f s = g s) -> forall n s, repeat_loop n f s = repeat_loop n g s.
Proof.
  intros Hfg; induction n as [| n IH]; intros s; simpl; [ reflexivity | ].
  rewrite Hfg. destruct (g s); simpl; auto.
Qed.

Lemma mapM_row_out_of_range {R : Type} (T : Tensor R) (idx : list nat) :
  Exists (fun i => nrows T <= i) idx -> mapM (row T) idx = Raise IndexError.
Proof.
  induction 1 as [i idx Hi | i idx _ IH]; simpl.
  - unfold row at 1. apply nth_error_None in Hi. now rewrite Hi.
  - unfold row at 1. destruct (nth_error (rows T) i); simpl; [ | reflexivity ].
    now rewrite IH.
Qed.

Section Symmetry.
Context {R : Type} {SR : Scalar R}.

Hypothesis add_comm : forall x y : R, add x y = add y x.

(** X1. After the symmetrisation step of line 192, a directed edge and its
    reverse carry the same hidden row, provided [b2revb] has one entry per
    row of the hidden state and maps the two edges to each other. *)
Theorem symmetrize_rows_agree (bmg : BatchMolGraph R) (H_x H' : Tensor R)
    (e r : nat) :
  symmetrize bmg H_x = Ok H' ->
  length (b2revb bmg) = nrows H_x ->
  nth_error (b2revb bmg) e = Some r ->
  nth_error (b2revb bmg) r = Some e ->
  exists x, nth_error (rows H') e = Some x /\ nth_error (rows H') r = Some x.
Proof.
  unfold symmetrize. intros Hs Hlen Her Hre.
  bind_ok_as Hs Hi. rename a into H_rev. bind_ok_as Hs Hz. inversion Hs; subst H'.
  apply index_select_inv in Hi as (Hn & Hc & Hm).
  unfold tadd in Hz. apply tzip_inv in Hz as (n & m & Hbn & Hbm & ->).
  rewrite Hn, Hlen, bshape_refl in Hbn. inversion Hbn; subst n.
  rewrite Hc, bshape_refl in Hbm. inversion Hbm; subst m.
  assert (He : e < nrows H_x)
    by (rewrite <- Hlen; apply nth_error_Some; congruence).
  assert (Hr : r < nrows H_x)
    by (rewrite <- Hlen; apply nth_error_Some; congruence).
  destruct (mapM_nth_error _ _ e Hm Her) as (hr & Hhr & Hrev_e).
  destruct (mapM_nth_error _ _ r Hm Hre) as (he & Hhe & Hrev_r).
  apply row_inv in Hhr, Hhe.
  assert (Hnr : nrows H_rev = nrows H_x) by congruence.
  unfold tdiv2, tmap; cbn [rows].
  rewrite !nth_error_map, !tabulate_row by assumption. cbn [option_map].
  eexists; split; [ reflexivity | ]. do 2 f_equal.
  apply map_ext. intros j.
  rewrite (bget_row H_x j Hhe (bidx_lt He)), (bget_row H_x j Hhr (bidx_lt Hr)).
  rewrite (bget_row H_rev j Hrev_e), (bget_row H_rev j Hrev_r)
    by (rewrite Hnr; now apply bidx_lt).
  rewrite Hc. apply add_comm.
Qed.

End Symmetry.

(** X1, on edges 3 and 4 of the chain. *)
Lemma symmetrize_rows_agree_witness :
  exists x,
    nth_error (rows (mkTensor 1 [[0]; [5]; [5]; [550]; [550]]%Z)) 3 = Some x /\
    nth_error (rows (mkTensor 1 [[0]; [5]; [5]; [550]; [550]]%Z)) 4 = Some x.
Proof.
  apply (@symmetrize_rows_agree Z Z_Scalar Z.add_comm chain3 (E chain3)
           (mkTensor 1 [[0]; [5]; [5]; [550]; [550]]%Z) 3 4);
    reflexivity.
Defined.

Section Randomness.
Context {R : Type} {SR : Scalar R}.

Lemma apply_dropout_off (TR : Torch R) (D : Dropout) (c : nat) (T : Tensor R) :
  training D = false \/ Qeq_bool (p D) 0 = true ->
  @apply_dropout R SR TR D c T = T.
Proof.
  unfold apply_dropout. intros [-> | ->]; simpl; [ reflexivity | ].
  now rewrite orb_true_r.
Qed.

Lemma finalize_dropout_off (TR1 TR2 : Torch R) (blk : Block R) (c : nat)
    (M_v V0 : Tensor R) (V_d : option (Tensor R)) :
  training (dropout blk) = false \/ Qeq_bool (p (dropout blk)) 0 = true ->
  @finalize R SR TR1 blk c M_v V0 V_d = @finalize R SR TR2 blk c M_v V0 V_d.
Proof.
  intros Hoff. unfold finalize.
  destruct (cat1 V0 M_v) as [X |]; simpl; [ | reflexivity ].
  destruct (apply_linear (W_o blk) X) as [Y |]; simpl; [ | reflexivity ].
  rewrite !(apply_dropout_off _ _ _ _ Hoff).
  destruct V_d as [V_d |]; [ | reflexivity ].
  destruct (cat1 (tmap (tau blk) Y) V_d) as [H_vd |]; simpl; [ | reflexivity ].
  destruct (getattr "W_vd" (W_vd blk)) as [W |]; simpl; [ | reflexivity ].
  destruct (apply_linear W H_vd) as [Z0 |]; simpl; [ | reflexivity ].
  now rewrite !(apply_dropout_off _ _ _ _ Hoff).
Qed.

(** X2. In evaluation mode, or with dropout probability 0, the result of
    [forward] does not depend on the draws of the random generator nor on the
    rescaling: any two generators give the same result, error or tensor. *)
Theorem forward_ignores_generator_when_dropout_off (TR1 TR2 : Torch R)
    (blk : Block R) (bmg : BatchMolGraph R) (V_d : option (Tensor R)) :
  training (dropout blk) = false \/ Qeq_bool (p (dropout blk)) 0 = true ->
  @forward R SR TR1 blk bmg V_d = @forward R SR TR2 blk bmg V_d.
Proof.
  intros Hoff.
  assert (Hb : forall H_0 st, @bond_round R SR TR1 blk bmg H_0 st
                              = @bond_round R SR TR2 blk bmg H_0 st).
  { intros H_0 [H_e c]. unfold bond_round.
    destruct (if undirected blk then symmetrize bmg H_e else Ok H_e); simpl;
      [ | reflexivity ].
    destruct (bond_message bmg a); simpl; [ | reflexivity ].
    destruct (apply_linear (W_h blk) a0); simpl; [ | reflexivity ].
    destruct (tadd H_0 a1); simpl; [ | reflexivity ].
    now rewrite !(apply_dropout_off _ _ _ _ Hoff). }
  assert (Ha : forall H_0 st, @atom_round R SR TR1 blk bmg H_0 st
                              = @atom_round R SR TR2 blk bmg H_0 st).
  { intros H_0 [H_v c]. unfold atom_round.
    destruct (if undirected blk then symmetrize bmg H_v else Ok H_v); simpl;
      [ | reflexivity ].
    destruct (atom_message bmg a); simpl; [ | reflexivity ].
    destruct (apply_linear (W_h blk) a0); simpl; [ | reflexivity ].
    destruct (tadd H_0 a1); simpl; [ | reflexivity ].
    now rewrite !(apply_dropout_off _ _ _ _ Hoff). }
  unfold forward, bond_forward, atom_forward, bond_hidden, atom_hidden.
  destruct (variant blk).
  - destruct (apply_linear (W_i blk) (E bmg)) as [H_0 |]; simpl; [ | reflexivity ].
    rewrite (repeat_loop_ext _ _ (Hb H_0)).
    destruct (repeat_loop (n_rounds blk) (bond_round blk bmg H_0)
                (tmap (tau blk) H_0, 0)) as [[H_e c] |]; simpl; [ | reflexivity ].
    destruct (index2 H_e (a2b bmg)); simpl; [ | reflexivity ].
    now apply finalize_dropout_off.
  - destruct (apply_linear (W_i blk) (V bmg)) as [H_0 |]; simpl; [ | reflexivity ].
    rewrite (repeat_loop_ext _ _ (Ha H_0)).
    destruct (repeat_loop (n_rounds blk) (atom_round blk bmg H_0)
                (tmap (tau blk) H_0, 0)) as [[H_v c] |]; simpl; [ | reflexivity ].
    destruct (index2 H_v (a2a bmg)); simpl; [ | reflexivity ].
    now apply finalize_dropout_off.
Qed.

End Randomness.

(** X2, on a block in training mode with probability 0 and two generators,
    one keeping and one dropping every entry. *)
Lemma forward_ignores_generator_when_dropout_off_witness :
  @forward Z Z_Scalar Z_Torch
    (Z_block BondMessageBlock 1 1 1 false 3 true None) chain3 None
  = @forward Z Z_Scalar Z_Torch_dropping
      (Z_block BondMessageBlock 1 1 1 false 3 true None) chain3 None.
Proof.
  apply (@forward_ignores_generator_when_dropout_off Z Z_Scalar
           Z_Torch Z_Torch_dropping).
  right. reflexivity.
Defined.

Section Errors.
Context {R : Type} {SR : Scalar R} {TR : Torch R}.

(** X3. [finalize] raises [RuntimeError] exactly when its first half fails,
    that is when [V] and [M_v] differ in their row counts or their widths do
    not add up to the input width of [W_o]; a descriptor never makes it raise
    [RuntimeError], and never hides this one behind an [InvalidShapeError]. *)
Theorem finalize_runtime_error_iff (blk : Block R) (c : nat) (M_v V0 : Tensor R)
    (V_d : option (Tensor R)) :
  finalize blk c M_v V0 V_d = Raise RuntimeError <->
  nrows V0 <> nrows M_v \/ ncols V0 + ncols M_v <> in_features (W_o blk).
Proof.
  split.
  - intros Hf.
    destruct (Nat.eq_dec (nrows V0) (nrows M_v)) as [Hn | Hn]; [ | now left ].
    destruct (Nat.eq_dec (ncols V0 + ncols M_v) (in_features (W_o blk)))
      as [Hw | Hw]; [ | now right ].
    exfalso. destruct V_d as [V_d |].
    + rewrite finalize_Some in Hf by assumption.
      unfold except_RuntimeError in Hf.
      destruct (cat1 (readout blk c M_v V0) V_d) as [H_vd | e1]; simpl in Hf.
      * destruct (W_vd blk) as [W |]; simpl in Hf; [ | discriminate ].
        destruct (apply_linear W H_vd) as [Y | e2]; simpl in Hf; [ discriminate | ].
        destruct e2; try discriminate. destruct (d_vd blk); discriminate.
      * destruct e1; try discriminate. destruct (d_vd blk); discriminate.
    + rewrite finalize_None in Hf by assumption. discriminate.
  - intros [Hn | Hw]; unfold finalize.
    + now rewrite cat1_bad.
    + destruct (Nat.eq_dec (nrows V0) (nrows M_v)) as [Hn | Hn].
      * rewrite (cat1_ok _ _ Hn); simpl. now rewrite apply_linear_bad.
      * now rewrite cat1_bad.
Qed.

(** On a batch whose index tensors fit, [forward] is [finalize] on an
    aggregated message of shape [rows(V) x d_h]. *)
Lemma forward_as_finalize (v : Variant) (d_v d_e d_h : nat) (b : bool) (dep : Z)
    (und : bool) (pr : Q) (act : string) (dvd : option nat) (blk : Block R)
    (bmg : BatchMolGraph R) :
  init v d_v d_e d_h b dep und pr act dvd = Ok blk ->
  graph_ok d_v d_e bmg -> (v = AtomMessageBlock -> und = false) ->
  exists c M_v,
    (forall V_d, forward blk bmg V_d = finalize blk c M_v (V bmg) V_d) /\
    nrows M_v = nrows (V bmg) /\ ncols M_v = d_h.
Proof.
  intros Hi Hg Hatom.
  pose proof (init_fields _ _ _ _ _ _ _ _ _ _ Hi)
    as (Hv & _ & Hu & _ & _ & _ & Hsetup).
  unfold forward, bond_forward, atom_forward. rewrite Hv.
  destruct v; simpl in Hsetup; inversion Hsetup as [[HWi HWh HWo']].
  - destruct (bond_hidden_ok (d_h := d_h) blk (n_rounds blk) Hg)
      as ([H_e c] & Hh & Hn & Hc);
      try (rewrite ?HWi, ?HWh; reflexivity).
    simpl in Hn, Hc.
    destruct Hg as (_ & _ & Hab & _ & _ & _ & Fab & _).
    rewrite <- Hn in Fab.
    destruct (index2_ok H_e (a2b bmg) Fab) as (T3 & HT & Hs & _ & Hd2).
    exists c, (sum1 T3). split.
    + intros V_d. rewrite Hh; simpl. now rewrite HT.
    + rewrite sum1_nrows. simpl. split; congruence.
  - destruct (atom_hidden_ok (d_h := d_h) blk (n_rounds blk) Hg)
      as ([H_v c] & Hh & Hn & Hc);
      try (rewrite ?HWi, ?HWh; reflexivity).
    { rewrite Hu. now apply Hatom. }
    simpl in Hn, Hc.
    destruct Hg as (_ & _ & _ & Haa & _ & _ & _ & Faa & _).
    rewrite <- Hn in Faa.
    destruct (index2_ok H_v (a2a bmg) Faa) as (T3 & HT & Hs & _ & Hd2).
    exists c, (sum1 T3). split.
    + intros V_d. rewrite Hh; simpl. now rewrite HT.
    + rewrite sum1_nrows. simpl. split; congruence.
Qed.

(** X4. A block constructed without a descriptor width cannot take a
    descriptor: on a batch it can otherwise encode, [forward] with any
    descriptor raises [AttributeError], for the attribute [W_vd] when the
    descriptor has as many rows as [V] and for [d_vd] (read while the shape
    error is being built) when it has not. *)
Theorem descriptor_without_d_vd_raises (v : Variant) (d_v d_e d_h : nat)
    (b : bool) (dep : Z) (und : bool) (pr : Q) (act : string) (blk : Block R)
    (bmg : BatchMolGraph R) (V_d : Tensor R) :
  init v d_v d_e d_h b dep und pr act None = Ok blk ->
  graph_ok d_v d_e bmg -> (v = AtomMessageBlock -> und = false) ->
  forward blk bmg (Some V_d)
  = Raise (AttributeError (if nrows V_d =? nrows (V bmg) then "W_vd" else "d_vd")).
Proof.
  intros Hi Hg Hatom.
  destruct (@forward_as_finalize _ _ _ _ _ _ _ _ _ _ _ _ Hi Hg Hatom)
    as (c & M_v & Hfw & HMn & HMc).
  pose proof (init_W_o _ _ _ _ _ _ _ _ _ _ Hi) as HWo.
  apply init_fields in Hi. destruct Hi as (_ & _ & _ & Hd & _ & HWvd & _).
  rewrite Hfw, finalize_Some;
    [ | congruence | rewrite HWo; simpl; destruct Hg as (HVc & _); lia ].
  rewrite HWvd, Hd.
  pose proof (readout_nrows blk c M_v (V bmg) (eq_sym HMn)) as Hr.
  destruct (Nat.eqb_spec (nrows V_d) (nrows (V bmg))) as [Hn | Hn].
  - rewrite cat1_ok by congruence. reflexivity.
  - rewrite cat1_bad by congruence. reflexivity.
Qed.

(** X5. The undirected atom block indexes the atom state with the bond
    reverse map: with at least one update round ([depth >= 2]) and a vertex
    matrix [W_i] accepts, [forward] raises [IndexError] as soon as some entry
    of [b2revb] is not below the number of rows of [V]. *)
Theorem atom_undirected_index_error (blk : Block R) (bmg : BatchMolGraph R)
    (V_d : option (Tensor R)) :
  variant blk = AtomMessageBlock -> undirected blk = true ->
  (2 <= depth blk)%Z ->
  ncols (V bmg) = in_features (W_i blk) ->
  Exists (fun e => nrows (V bmg) <= e) (b2revb bmg) ->
  forward blk bmg V_d = Raise IndexError.
Proof.
  intros Hv Hu Hd Hw Hex.
  unfold forward, atom_forward, atom_hidden. rewrite Hv.
  rewrite apply_linear_ok by exact Hw. simpl.
  unfold n_rounds. destruct (Z.to_nat (depth blk - 1)) as [| n] eqn:Hn; [ lia | ].
  simpl. rewrite Hu. unfold symmetrize, index_select.
  rewrite mapM_row_out_of_range; [ reflexivity | ].
  now rewrite tmap_nrows, linear_out_nrows.
Qed.

End Errors.

(** X3, on a message with a row missing. *)
Lemma finalize_runtime_error_iff_witness :
  finalize (Z_block BondMessageBlock 1 1 1 false 3 false (Some 2)) 0
    (mkTensor 1 [[0]; [5]]%Z) (V two_atoms)
    (Some (mkTensor 2 [[0; 0]; [1; 1]; [2; 2]]%Z))
  = Raise RuntimeError.
Proof.
  apply (proj2 (@finalize_runtime_error_iff Z Z_Scalar Z_Torch
                  (Z_block BondMessageBlock 1 1 1 false 3 false (Some 2)) 0
                  (mkTensor 1 [[0]; [5]]%Z) (V two_atoms)
                  (Some (mkTensor 2 [[0; 0]; [1; 1]; [2; 2]]%Z)))).
  left. discriminate.
Defined.

(** X4, on the two-atom batch and a descriptor of three rows. *)
Lemma descriptor_without_d_vd_raises_witness :
  forward (Z_block BondMessageBlock 1 1 1 false 3 false None) two_atoms
    (Some (mkTensor 2 [[0; 0]; [1; 1]; [2; 2]]%Z))
  = Raise (AttributeError "W_vd").
Proof.
  assert (Hi : init BondMessageBlock 1 1 1 false 3 false 0 "relu" None
               = Ok (Z_block BondMessageBlock 1 1 1 false 3 false None))
    by reflexivity.
  refine (@descriptor_without_d_vd_raises Z Z_Scalar Z_Torch _ _ _ _ _ _ _ _ _ _
            two_atoms (mkTensor 2 [[0; 0]; [1; 1]; [2; 2]]%Z) Hi _ _);
    first [ discriminate
          | unfold graph_ok; simpl; repeat split; repeat constructor ].
Defined.

(** X5, on the chain of three atoms: four rows in [V], and edge 3 has the
    reverse 4. *)
Lemma atom_undirected_index_error_witness :
  forward (Z_block AtomMessageBlock 1 1 1 false 2 true None) chain3 None
  = Raise IndexError.
Proof.
  apply (@atom_undirected_index_error Z Z_Scalar Z_Torch
           (Z_block AtomMessageBlock 1 1 1 false 2 true None) chain3 None);
    try reflexivity.
  simpl. do 3 apply Exists_cons_tl. apply Exists_cons_hd. apply le_n.
Defined.

Section Loop.
Context {R : Type} {SR : Scalar R} {TR : Torch R}.

Lemma round_wf (blk : Block R) (bmg : BatchMolGraph R) (H_0 : Tensor R)
    (st st' : Tensor R * nat) :
  bond_round blk bmg H_0 st = Ok st' \/ atom_round blk bmg H_0 st = Ok st' ->
  wf (fst st').
Proof.
  destruct st as [H_x c]. unfold bond_round, atom_round.
  intros [Hr | Hr]; bind_ok Hr; bind_ok Hr; bind_ok Hr; bind_ok_as Hr Hz;
    inversion Hr; subst st'; simpl;
    apply tzip_inv in Hz as (n & m & _ & _ & ->);
    apply apply_dropout_wf, tmap_wf, tabulate_wf.
Qed.

Lemma hidden_wf (blk : Block R) (bmg : BatchMolGraph R) (n : nat)
    (st : Tensor R * nat) :
  bond_hidden blk bmg n = Ok st \/ atom_hidden blk bmg n = Ok st -> wf (fst st).
Proof.
  unfold bond_hidden, atom_hidden.
  intros [Hh | Hh]; bind_ok_as Hh HL; apply apply_linear_inv in HL as [_ ->];
    (eapply (@repeat_loop_preserves _ (fun s => wf (fst s))); [ | | exact Hh ]);
    try (simpl; apply tmap_wf, linear_out_wf);
    intros s s' _ Hr; eapply round_wf; eauto.
Qed.

(** X6. On a batch whose index tensors fit its feature matrices, the loop of
    either variant can make any number of passes, and after [n] passes it has
    made [n] dropout calls and holds a hidden state with one row per row of
    [E] (bond variant) or of [V] (atom variant, undirected flag off), every
    row of width [d_h]. *)
Theorem hidden_state_shape (v : Variant) (d_v d_e d_h : nat) (b : bool) (dep : Z)
    (und : bool) (pr : Q) (act : string) (dvd : option nat) (blk : Block R)
    (bmg : BatchMolGraph R) (n : nat) :
  init v d_v d_e d_h b dep und pr act dvd = Ok blk ->
  graph_ok d_v d_e bmg ->
  (v = BondMessageBlock ->
   exists H_e, bond_hidden blk bmg n = Ok (H_e, n) /\
               nrows H_e = nrows (E bmg) /\ ncols H_e = d_h /\ wf H_e) /\
  (v = AtomMessageBlock -> und = false ->
   exists H_v, atom_hidden blk bmg n = Ok (H_v, n) /\
               nrows H_v = nrows (V bmg) /\ ncols H_v = d_h /\ wf H_v).
Proof.
  intros Hi Hg.
  pose proof (init_fields _ _ _ _ _ _ _ _ _ _ Hi)
    as (_ & _ & Hu & _ & _ & _ & Hsetup).
  split.
  - intros ->. simpl in Hsetup. inversion Hsetup as [[HWi HWh HWo']].
    destruct (bond_hidden_ok (d_h := d_h) blk n Hg)
      as ([H_e c] & Hh & Hn & Hc); try (rewrite ?HWi, ?HWh; reflexivity).
    simpl in Hn, Hc.
    assert (c = n) by (eapply hidden_counter; left; exact Hh). subst c.
    exists H_e. repeat split; auto.
    apply (hidden_wf blk bmg n (st := (H_e, n))). now left.
  - intros -> ->. simpl in Hsetup. inversion Hsetup as [[HWi HWh HWo']].
    destruct (atom_hidden_ok (d_h := d_h) blk n Hg)
      as ([H_v c] & Hh & Hn & Hc); try (rewrite ?HWi, ?HWh; reflexivity);
      [ exact Hu | ].
    simpl in Hn, Hc.
    assert (c = n) by (eapply hidden_counter; right; exact Hh). subst c.
    exists H_v. repeat split; auto.
    apply (hidden_wf blk bmg n (st := (H_v, n))). now right.
Qed.

(** X7. The bond variant never reads [a2a]; the atom variant never reads
    [b2a], and with the undirected flag off it never reads [b2revb]: replacing
    these index tensors by anything leaves the result of [forward], error or
    tensor, as it was. *)
Theorem forward_unused_indices (blk : Block R) (bmg : BatchMolGraph R)
    (V_d : option (Tensor R)) :
  (variant blk = BondMessageBlock ->
   forall x, forward blk (set_a2a x bmg) V_d = forward blk bmg V_d) /\
  (variant blk = AtomMessageBlock ->
   (forall x, forward blk (set_b2a x bmg) V_d = forward blk bmg V_d) /\
   (undirected blk = false ->
    forall x, forward blk (set_b2revb x bmg) V_d = forward blk bmg V_d)).
Proof.
  unfold forward. split; [ | intros Hv; split ].
  - intros -> x. destruct bmg; reflexivity.
  - intros x. rewrite Hv. destruct bmg; reflexivity.
  - intros Hu x. rewrite Hv.
    unfold atom_forward, atom_hidden. simpl.
    destruct (apply_linear (W_i blk) (V bmg)) as [H_0 |]; simpl; [ | reflexivity ].
    rewrite (repeat_loop_ext (atom_round blk (set_b2revb x bmg) H_0)
               (atom_round blk bmg H_0)); [ reflexivity | ].
    intros [H_v c]. unfold atom_round. rewrite Hu. reflexivity.
Qed.

End Loop.

(** X6, on the bond block and the chain, after two passes. *)
Lemma hidden_state_shape_witness :
  exists H_e,
    bond_hidden (Z_block BondMessageBlock 1 1 1 false 3 false None) chain3 2
    = Ok (H_e, 2) /\
    nrows H_e = 5 /\ ncols H_e = 1.
Proof.
  assert (Hi : init BondMessageBlock 1 1 1 false 3 false 0 "relu" None
               = Ok (Z_block BondMessageBlock 1 1 1 false 3 false None))
    by reflexivity.
  assert (Hg : graph_ok 1 1 chain3)
    by (unfold graph_ok; simpl; repeat split; repeat constructor).
  destruct (@hidden_state_shape Z Z_Scalar Z_Torch _ _ _ _ _ _ _ _ _ _ _
              chain3 2 Hi Hg) as [Hb _].
  destruct (Hb eq_refl) as (H_e & Hh & Hn & Hc & _).
  exists H_e. repeat split; assumption.
Defined.

(** X7, on the bond block and the chain with its neighbour lists emptied. *)
Lemma forward_unused_indices_witness :
  forward (Z_block BondMessageBlock 1 1 1 false 3 false None)
    (set_a2a (mkIndex2 0 []) chain3) None
  = forward (Z_block BondMessageBlock 1 1 1 false 3 false None) chain3 None.
Proof.
  destruct (@forward_unused_indices Z Z_Scalar Z_Torch
              (Z_block BondMessageBlock 1 1 1 false 3 false None) chain3 None)
    as [Hb _].
  apply Hb. reflexivity.
Defined.

Lemma mapM_app {A B : Type} (f : A -> result B) (l l' : list A) :
  mapM f (l ++ l')
  = (bs <- mapM f l ;; bs' <- mapM f l' ;; Ok (bs ++ bs')%list).
Proof.
  induction l as [| a l IH]; simpl.
  - destruct (mapM f l'); reflexivity.
  - destruct (f a); simpl; [ | reflexivity ]. rewrite IH.
    destruct (mapM f l); simpl; [ | reflexivity ].
    destruct (mapM f l'); reflexivity.
Qed.

Lemma repeat_loop_ext_on {T : Type} (P : T -> Prop) (f g : T -> result T) :
  (forall s, P s -> f s = g s) ->
  (forall s s', P s -> g s = Ok s' -> P s') ->
  forall n s, P s -> repeat_loop n f s = repeat_loop n g s.
Proof.
  intros Hfg Hg; induction n as [| n IH]; intros s Hs; simpl; [ reflexivity | ].
  rewrite (Hfg s Hs). destruct (g s) as [s' |] eqn:Hgs; simpl; [ | reflexivity ].
  apply IH. eapply Hg; eauto.
Qed.

Section Padding.
Context {R : Type} {SR : Scalar R} {TR : Torch R}.

Hypothesis add_zero_r : forall x : R, add x zero = x.
Hypothesis sub_zero_zero : sub zero zero = zero.
Hypothesis mul_zero_l : forall x : R, mul zero x = zero.
Hypothesis half_zero : half zero = zero.
Hypothesis rescale_zero : forall q : Q, rescale q zero = zero.

Lemma mapM_row_padding (T : Tensor R) (k : nat) :
  sentinel_zero T ->
  mapM (row T) (repeat 0 k) = Ok (repeat (repeat zero (ncols T)) k).
Proof.
  intros HT. induction k as [| k IH]; simpl; [ reflexivity | ].
  unfold row at 1. unfold sentinel_zero in HT. rewrite HT. simpl.
  now rewrite IH.
Qed.

Lemma fold_vadd_padding (d k : nat) (acc : list R) :
  length acc = d -> fold_left vadd (repeat (repeat zero d) k) acc = acc.
Proof.
  intros Hacc. induction k as [| k IH]; simpl; [ reflexivity | ].
  now rewrite (vadd_zero_r add_zero_r acc Hacc).
Qed.

Lemma fold_vadd_length (d : nat) (hs : list (list R)) (acc : list R) :
  Forall (fun h => length h = d) hs -> length acc = d ->
  length (fold_left vadd hs acc) = d.
Proof.
  intros Hhs. revert acc. induction Hhs as [| h hs Hh _ IH]; intros acc Hacc;
    simpl; [ exact Hacc | ].
  apply IH. unfold vadd. rewrite zipWith_length. lia.
Qed.

Lemma mapM_rows_pad (T : Tensor R) (k : nat) (nb : list nat) :
  sentinel_zero T ->
  mapM (row T) (nb ++ repeat 0 k)
  = (hs <- mapM (row T) nb ;; Ok (hs ++ repeat (repeat zero (ncols T)) k)%list).
Proof.
  intros HT. rewrite mapM_app, (mapM_row_padding k HT).
  destruct (mapM (row T) nb); reflexivity.
Qed.

Lemma vsum_pad (T : Tensor R) (k : nat) (nb : list nat) (hs : list (list R)) :
  wf T -> mapM (row T) nb = Ok hs ->
  vsum (ncols T) (hs ++ repeat (repeat zero (ncols T)) k) = vsum (ncols T) hs.
Proof.
  intros Hwf Hm. unfold vsum. rewrite fold_left_app.
  apply fold_vadd_padding, fold_vadd_length; [ | apply repeat_length ].
  eapply mapM_Forall; [ | exact Hm ].
  intros i h _ Hr. eapply row_wf; eauto.
Qed.

Lemma index2_pad_slabs (T : Tensor R) (k : nat) (l : list (list nat)) :
  sentinel_zero T -> wf T ->
  match mapM (mapM (row T)) l with
  | Ok ss =>
      exists ss', mapM (mapM (row T)) (map (fun nb => nb ++ repeat 0 k)%list l)
                  = Ok ss' /\
                  map (vsum (ncols T)) ss' = map (vsum (ncols T)) ss
  | Raise e =>
      mapM (mapM (row T)) (map (fun nb => nb ++ repeat 0 k)%list l) = Raise e
  end.
Proof.
  intros HT Hwf. induction l as [| nb l IH]; simpl.
  - exists []. now split.
  - rewrite (mapM_rows_pad k nb HT).
    destruct (mapM (row T) nb) as [hs |] eqn:Hnb; simpl; [ | reflexivity ].
    destruct (mapM (mapM (row T)) l) as [ss |]; simpl.
    + destruct IH as (ss' & -> & Hss'). simpl.
      eexists; split; [ reflexivity | ]. simpl.
      now rewrite Hss', (vsum_pad k nb Hwf Hnb).
    + now rewrite IH.
Qed.

Lemma index2_pad {A : Type} (T : Tensor R) (k : nat) (idx : Index2)
    (K : Tensor R -> result A) :
  sentinel_zero T -> wf T ->
  (T3 <- index2 T (pad_index k idx) ;; K (sum1 T3))
  = (T3 <- index2 T idx ;; K (sum1 T3)).
Proof.
  intros HT Hwf. unfold index2, pad_index. cbn [entries arity].
  pose proof (index2_pad_slabs k (entries idx) HT Hwf) as Hp.
  destruct (mapM (mapM (row T)) (entries idx)) as [ss | e]; simpl.
  - destruct Hp as (ss' & -> & Hss'). simpl. unfold sum1. cbn [dim2 slabs].
    now rewrite Hss'.
  - now rewrite Hp.
Qed.

Lemma bond_round_pad (blk : Block R) (bmg : BatchMolGraph R) (k : nat)
    (H_0 : Tensor R) (st : Tensor R * nat) :
  sentinel_graph bmg -> padded st ->
  bond_round blk (pad_a2b k bmg) H_0 st = bond_round blk bmg H_0 st.
Proof.
  intros Hg [Hs Hwf]. destruct st as [H_e c]. simpl in Hs, Hwf.
  unfold bond_round.
  change (symmetrize (pad_a2b k bmg) H_e) with (symmetrize bmg H_e).
  destruct (if undirected blk then symmetrize bmg H_e else Ok H_e)
    as [H_1 |] eqn:Hsym; simpl; [ | reflexivity ].
  assert (H1 : sentinel_zero H_1 /\ wf H_1).
  { destruct (undirected blk).
    - destruct Hg as (_ & _ & _ & _ & _ & Hrev).
      exact (symmetrize_sentinel add_zero_r half_zero bmg Hrev Hs Hsym).
    - inversion Hsym; subst. now split. }
  destruct H1 as [Hs1 Hwf1].
  assert (Hm : bond_message (pad_a2b k bmg) H_1 = bond_message bmg H_1).
  { unfold bond_message. cbn [pad_a2b a2b b2a b2revb].
    apply (index2_pad k (a2b bmg)
             (fun S0 => M_e <- index_select S0 (b2a bmg) ;;
                        H_rev <- index_select H_1 (b2revb bmg) ;;
                        tsub M_e H_rev) Hs1 Hwf1). }
  now rewrite Hm.
Qed.

(** X8. In the bond variant the batch-wide padding width does not matter:
    when [W_i] and [W_h] carry no bias, the activation maps zero to zero and
    the batch follows the sentinel convention, appending any number of
    padding entries to every row of [a2b] leaves the result of [forward],
    error or tensor, as it was. *)
Theorem padding_width_irrelevant (blk : Block R) (bmg : BatchMolGraph R)
    (k : nat) (V_d : option (Tensor R)) :
  variant blk = BondMessageBlock ->
  bias (W_i blk) = None -> bias (W_h blk) = None -> tau blk zero = zero ->
  sentinel_graph bmg ->
  forward blk (pad_a2b k bmg) V_d = forward blk bmg V_d.
Proof.
  intros Hv Hbi Hbh Htau Hg. pose proof Hg as (_ & HE & _).
  unfold forward. rewrite Hv. unfold bond_forward.
  assert (Hhid : bond_hidden blk (pad_a2b k bmg) (n_rounds blk)
                 = bond_hidden blk bmg (n_rounds blk)).
  { unfold bond_hidden. cbn [pad_a2b E].
    destruct (apply_linear (W_i blk) (E bmg)) as [H_0 |] eqn:HL; simpl;
      [ | reflexivity ].
    apply apply_linear_inv in HL as [_ ->].
    assert (H0s : sentinel_zero (linear_out (W_i blk) (E bmg)))
      by (now apply (linear_out_sentinel add_zero_r mul_zero_l)).
    apply (repeat_loop_ext_on padded).
    - intros s Hs. now apply bond_round_pad.
    - intros s s' Hs Hr.
      exact (bond_round_sentinel add_zero_r sub_zero_zero mul_zero_l half_zero
               rescale_zero blk Hbh Htau Hg H0s Hs Hr).
    - split; simpl.
      + now apply tmap_sentinel.
      + apply tmap_wf, linear_out_wf. }
  rewrite Hhid.
  destruct (bond_hidden blk bmg (n_rounds blk)) as [[H_e c] |] eqn:Hh; simpl;
    [ | reflexivity ].
  destruct (hidden_padded add_zero_r sub_zero_zero mul_zero_l half_zero
              rescale_zero blk (n_rounds blk) Hbi Hbh Htau Hg (or_introl Hh))
    as [Hs Hwf].
  simpl in Hs, Hwf. cbn [pad_a2b a2b V].
  exact (index2_pad k (a2b bmg)
           (fun M_v => finalize blk c M_v (V bmg) V_d) Hs Hwf).
Qed.

End Padding.

(** X8, on the bond block without bias and the chain, with three more padding
    entries per atom. *)
Lemma padding_width_irrelevant_witness :
  forward (Z_block BondMessageBlock 1 1 1 false 3 true None) (pad_a2b 3 chain3) None
  = forward (Z_block BondMessageBlock 1 1 1 false 3 true None) chain3 None.
Proof.
  apply (@padding_width_irrelevant Z Z_Scalar Z_Torch
           Z.add_0_r eq_refl Z.mul_0_l eq_refl (fun q => eq_refl));
    try reflexivity.
  unfold sentinel_graph, pad_row, sentinel_zero; simpl.
  repeat split; try reflexivity;
    (exists [0; 0]; split; [ reflexivity | repeat constructor ]).
Defined.

(** * Properties of the datasets *)

Module DatasetsProps.
Import Datasets.

Lemma nth_error_combine {A B : Type} (l : list A) (l' : list B) (i : nat) :
  nth_error (combine l l') i
  = match nth_error l i, nth_error l' i with
    | Some a, Some b => Some (a, b)
    | _, _ => None
    end.
Proof.
  revert l' i; induction l as [| a l IH]; intros [| b l'] [| i]; simpl; auto.
  destruct (nth_error l i); reflexivity.
Qed.

Lemma map_fst_combine {A B : Type} (l : list A) (l' : list B) :
  length l = length l' -> map fst (combine l l') = l.
Proof.
  revert l'; induction l as [| a l IH]; intros [| b l'] Hl; simpl in *;
    try discriminate; [ reflexivity | ].
  f_equal. apply IH. lia.
Qed.

Section Targets.
Context {F Mol : Type}.

Lemma write_targets_spec (l : list (nat * list F)) (h : @Heap F Mol) (r : nat) :
  targets (write_targets l h r)
  = match last_write r l with
    | Some t => t
    | None => targets (h r)
    end.
Proof.
  revert h; induction l as [| [r0 t0] l IH]; intros h; simpl; [ reflexivity | ].
  unfold write_targets in *. simpl. rewrite IH.
  destruct (last_write r l); [ reflexivity | ].
  unfold upd; simpl. destruct (r =? r0); reflexivity.
Qed.

Lemma write_targets_other (l : list (nat * list F)) (h : @Heap F Mol) (r : nat) :
  ~ In r (map fst l) -> write_targets l h r = h r.
Proof.
  revert h; induction l as [| [r0 t0] l IH]; intros h Hr; simpl; [ reflexivity | ].
  unfold write_targets in *. simpl in *. rewrite IH by tauto.
  unfold upd. destruct (Nat.eqb_spec r r0); [ subst; tauto | reflexivity ].
Qed.

Lemma write_targets_raw (l : list (nat * list F)) (h : @Heap F Mol) (r : nat) :
  raw_targets (write_targets l h r) = raw_targets (h r).
Proof.
  revert h; induction l as [| [r0 t0] l IH]; intros h; simpl; [ reflexivity | ].
  unfold write_targets in *. simpl. rewrite IH.
  unfold upd; simpl. destruct (Nat.eqb_spec r r0); [ now subst | reflexivity ].
Qed.

Lemma last_write_None (l : list (nat * list F)) (r : nat) :
  ~ In r (map fst l) -> last_write r l = None.
Proof.
  induction l as [| [r0 t0] l IH]; intros Hr; simpl in *; [ reflexivity | ].
  rewrite IH by tauto. destruct (Nat.eqb_spec r r0); [ subst; tauto | reflexivity ].
Qed.

(** The row read back for [r] is the one at the last position of [r]. *)
Lemma last_write_last (l : list (nat * list F)) (j r : nat) (t : list F) :
  nth_error l j = Some (r, t) ->
  (forall j' x, j < j' -> nth_error l j' = Some x -> fst x <> r) ->
  last_write r l = Some t.
Proof.
  revert j; induction l as [| [r0 t0] l IH]; intros j Hj Hlast.
  - destruct j; discriminate.
  - simpl. destruct j as [| j]; simpl in Hj.
    + inversion Hj; subst r0 t0.
      rewrite last_write_None, Nat.eqb_refl; [ reflexivity | ].
      intros Hin. apply in_map_iff in Hin as ([r' t'] & Hfst & Hin).
      apply In_nth_error in Hin as (j' & Hj').
      apply (Hlast (S j') (r', t')); [ lia | exact Hj' | exact Hfst ].
    + rewrite (IH j Hj); [ reflexivity | ].
      intros j' x Hlt Hx. apply (Hlast (S j') x); [ lia | exact Hx ].
Qed.

Lemma get_targets_write (ds : MolGraphDataset) (ts : list (list F))
    (h : @Heap F Mol) :
  length (data ds) = length ts -> NoDup (data ds) ->
  get_targets ds (write_targets (combine (data ds) ts) h) = ts.
Proof.
  intros Hl Hnd. unfold get_targets. apply nth_error_ext. intros i.
  rewrite nth_error_map.
  destruct (nth_error (data ds) i) as [r |] eqn:Hr; simpl.
  - destruct (nth_error ts i) as [t |] eqn:Ht.
    + f_equal. rewrite write_targets_spec.
      rewrite (@last_write_last (combine (data ds) ts) i r t);
        [ reflexivity | now rewrite nth_error_combine, Hr, Ht | ].
      intros j' [r' t'] Hlt Hx Hfst. simpl in Hfst. subst r'.
      rewrite nth_error_combine in Hx.
      destruct (nth_error (data ds) j') as [r' |] eqn:Hr'; [ | discriminate ].
      destruct (nth_error ts j'); [ | discriminate ].
      inversion Hx; subst r'.
      rewrite NoDup_nth_error in Hnd.
      assert (i = j'); [ | lia ].
      apply Hnd; [ | congruence ].
      apply nth_error_Some. congruence.
    + apply nth_error_None in Ht.
      assert (i < length (data ds)) by (apply nth_error_Some; congruence).
      lia.
  - symmetry. apply nth_error_None. apply nth_error_None in Hr. lia.
Qed.

(** X9. The setter of [targets] fails exactly when its argument has not one
    row per datapoint, raises [ValueError] then and writes nothing.  When it
    succeeds on a dataset whose datapoints are distinct objects, the getter
    reads back the array that was set, and no object outside the dataset is
    touched. *)
Theorem targets_set_then_get (ds : MolGraphDataset) (ts : list (list F))
    (h : @Heap F Mol) :
  (length (data ds) <> length ts <->
   set_targets ds ts h = (Raise ValueError, h)) /\
  (length (data ds) = length ts -> NoDup (data ds) ->
   exists h', set_targets ds ts h = (Ok tt, h') /\
              get_targets ds h' = ts /\
              forall r, ~ In r (data ds) -> h' r = h r).
Proof.
  unfold set_targets. split.
  - destruct (Nat.eqb_spec (length (data ds)) (length ts)) as [Hl | Hl].
    + split; [ tauto | discriminate ].
    + split; [ reflexivity | intros _; exact Hl ].
  - intros Hl Hnd. rewrite Hl, Nat.eqb_refl.
    eexists; split; [ reflexivity | ]. split.
    + now apply get_targets_write.
    + intros r Hr. apply write_targets_other.
      now rewrite map_fst_combine.
Qed.

(** X10. When one datapoint object sits at several positions of [data], the
    setter writes it once per position, and every one of these positions
    then reads back the row given for the last of them. *)
Theorem targets_last_write_wins (ds : MolGraphDataset) (ts : list (list F))
    (h h' : @Heap F Mol) (i j r : nat) :
  set_targets ds ts h = (Ok tt, h') ->
  nth_error (data ds) i = Some r ->
  nth_error (data ds) j = Some r ->
  (forall j', j < j' -> nth_error (data ds) j' <> Some r) ->
  nth_error (get_targets ds h') i = nth_error ts j /\
  exists t, nth_error ts j = Some t.
Proof.
  unfold set_targets. intros Hs Hi Hj Hlast.
  destruct (Nat.eqb_spec (length (data ds)) (length ts)) as [Hl | Hl];
    [ | discriminate ].
  inversion Hs; subst h'. clear Hs.
  destruct (nth_error ts j) as [t |] eqn:Ht.
  - split; [ | eauto ].
    unfold get_targets. rewrite nth_error_map, Hi. simpl. f_equal.
    rewrite write_targets_spec.
    rewrite (@last_write_last (combine (data ds) ts) j r t);
      [ reflexivity | now rewrite nth_error_combine, Hj, Ht | ].
    intros j' [r' t'] Hlt Hx Hfst. simpl in Hfst. subst r'.
    rewrite nth_error_combine in Hx.
    destruct (nth_error (data ds) j') as [r' |] eqn:Hr'; [ | discriminate ].
    destruct (nth_error ts j'); [ | discriminate ].
    inversion Hx; subst r'. now apply (Hlast j').
  - apply nth_error_None in Ht.
    assert (j < length (data ds)) by (apply nth_error_Some; congruence).
    lia.
Qed.

Lemma map_Some_inj {A : Type} (l l' : list A) :
  map Some l = map Some l' -> l = l'.
Proof.
  revert l'; induction l as [| a l IH]; intros [| b l'] Hm; simpl in *;
    try discriminate; [ reflexivity | ].
  inversion Hm. f_equal. now apply IH.
Qed.

(** [np.array] either finds a rectangle or raises [ValueError] on a row that
    does not fit. *)
Lemma rows_of_width_cases (n : nat) (l : list (option (list F))) :
  (exists rs, rows_of_width n l = Ok rs /\ l = map Some rs /\
              Forall (fun f => length f = n) rs) \/
  (rows_of_width n l = Raise ValueError /\ Exists (misfit n) l).
Proof.
  induction l as [| o l IH]; simpl.
  - left. exists []. repeat split. constructor.
  - destruct o as [f |]; [ | right; split; [ reflexivity | now left ] ].
    destruct (Nat.eqb_spec (length f) n) as [Hn | Hn];
      [ | right; split; [ reflexivity | now left ] ].
    destruct IH as [(rs & -> & -> & Hf) | [-> Hex]]; simpl.
    + left. exists (f :: rs). repeat split. now constructor.
    + right. split; [ reflexivity | now right ].
Qed.

Lemma misfit_rows (n : nat) (rs : list (list F)) :
  Forall (fun f => length f = n) rs -> ~ Exists (misfit n) (map Some rs).
Proof.
  induction 1 as [| f rs Hf _ IH]; simpl; intros Hex; inversion Hex; subst.
  - simpl in *. contradiction.
  - contradiction.
Qed.

(** X11. The [features] property looks at the first datapoint first: it is
    [None] exactly when the dataset is not empty and its first datapoint has
    no features, whatever the others have.  Otherwise it is an array exactly
    when every datapoint has features and all of one length, its rows being
    these features in order; and it raises [ValueError], from [np.array],
    exactly when the first datapoint has features and some datapoint has
    none or some of another length.  When it is an array of a dataset that
    is not empty, [features_size] is the length of each of its rows; on the
    empty dataset it is the empty array whereas [features_size] raises
    [IndexError]. *)
Theorem features_array_or_error (ds : MolGraphDataset) (h : @Heap F Mol) :
  (get_features ds h = Ok None <->
   exists r rest, data ds = r :: rest /\ features (h r) = None) /\
  (forall rows,
      get_features ds h = Ok (Some rows) <->
      map (fun r => features (h r)) (data ds) = map Some rows /\
      exists n, Forall (fun f => length f = n) rows) /\
  (forall e,
      get_features ds h = Raise e <->
      e = ValueError /\
      exists r rest f0,
        data ds = r :: rest /\ features (h r) = Some f0 /\
        Exists (fun r' => misfit (length f0) (features (h r'))) (data ds)) /\
  (forall rows,
      get_features ds h = Ok (Some rows) -> data ds <> [] ->
      exists n, features_size ds h = Ok (Some n) /\
                Forall (fun f => length f = n) rows) /\
  (data ds = [] ->
   get_features ds h = Ok (Some []) /\ features_size ds h = Raise IndexError).
Proof.
  unfold get_features, features_size.
  destruct (data ds) as [| r rest] eqn:Hd.
  - split; [ | split; [ | split; [ | split ] ] ].
    + split; [ discriminate | intros (r & rest & Hx & _); discriminate ].
    + intros rows. split.
      * intros Hr; inversion Hr; subst. split; [ reflexivity | ].
        exists 0. constructor.
      * intros [Hm _]. destruct rows; [ reflexivity | discriminate ].
    + intros e. split; [ discriminate | ].
      intros (_ & r & rest & f0 & Hx & _). discriminate.
    + intros rows _ Hne. contradiction.
    + intros _. split; reflexivity.
  - destruct (features (h r)) as [f0 |] eqn:Hf0.
    + pose proof (rows_of_width_cases (length f0)
                    (map (fun r0 => features (h r0)) (r :: rest))) as Hc.
      split; [ | split; [ | split; [ | split ] ] ].
      * split.
        -- destruct Hc as [(rs & -> & _) | [-> _]]; discriminate.
        -- intros (r' & rest' & Hx & Hn). inversion Hx; subst. congruence.
      * intros rows. split.
        -- intros Hr. destruct Hc as [(rs & Hok & Hm & Hf) | [Hbad _]].
           ++ rewrite Hok in Hr. simpl in Hr. inversion Hr; subst rows.
              split; [ exact Hm | eauto ].
           ++ rewrite Hbad in Hr. discriminate.
        -- intros [Hm [n Hf]].
           assert (Hn : n = length f0).
           { destruct rows as [| f rows]; [ discriminate | ].
             simpl in Hm. rewrite Hf0 in Hm. inversion Hm; subst f.
             now inversion Hf. }
           subst n. destruct Hc as [(rs & Hok & Hm' & _) | [_ Hex]].
           ++ rewrite Hok. simpl. do 2 f_equal.
              apply map_Some_inj. congruence.
           ++ rewrite Hm in Hex. now apply misfit_rows in Hex.
      * intros e. split.
        -- intros Hr. destruct Hc as [(rs & Hok & _) | [Hbad Hex]].
           ++ rewrite Hok in Hr. discriminate.
           ++ rewrite Hbad in Hr. simpl in Hr. inversion Hr.
              split; [ reflexivity | ]. exists r, rest, f0.
              split; [ reflexivity | ]. split; [ exact Hf0 | ].
              exact (proj1 (Exists_map (fun r0 => features (h r0))
                              (misfit (length f0)) (r :: rest)) Hex).
        -- intros (-> & r' & rest' & f0' & Hx & Hf' & Hex).
           inversion Hx; subst r' rest'.
           assert (f0' = f0) by congruence. subst f0'.
           destruct Hc as [(rs & _ & Hm & Hf) | [Hbad _]].
           ++ exfalso. apply (misfit_rows Hf). rewrite <- Hm.
              exact (proj2 (Exists_map (fun r0 => features (h r0))
                              (misfit (length f0)) (r :: rest)) Hex).
           ++ now rewrite Hbad.
      * intros rows Hr _. exists (length f0). split; [ reflexivity | ].
        destruct Hc as [(rs & Hok & _ & Hf) | [Hbad _]].
        -- rewrite Hok in Hr. simpl in Hr. now inversion Hr; subst.
        -- rewrite Hbad in Hr. discriminate.
      * discriminate.
    + split; [ | split; [ | split; [ | split ] ] ];
        try discriminate.
      * split; [ intros _; exists r, rest; now split | reflexivity ].
      * intros rows. split; [ discriminate | ].
        intros [Hm _]. simpl in Hm. rewrite Hf0 in Hm.
        destruct rows; discriminate.
      * intros e. split; [ discriminate | ].
        intros (_ & r' & rest' & f0 & Hx & Hf & _).
        inversion Hx; subst. congruence.
Qed.

End Targets.

Section Normalize.
Context {F Mol Scaler : Type}.
Variable fit : list (list F) -> Scaler.
Variable transform : Scaler -> list (list F) -> list (list F).

(** X12. [normalize_targets] always scales the raw targets: when the
    datapoints are distinct objects and the scaler returns one row per row it
    is given, the call returns the scaler fitted to the raw targets, leaves
    the transformed raw targets in [targets] and the raw targets as they
    were, and a second call returns the same scaler and leaves the same
    targets. *)
Theorem normalize_targets_idempotent (ds : MolGraphDataset) (h : @Heap F Mol) :
  NoDup (data ds) ->
  length (transform (fit (map (fun r => raw_targets (h r)) (data ds)))
            (map (fun r => raw_targets (h r)) (data ds)))
  = length (data ds) ->
  exists h',
    normalize_targets fit transform ds h
    = (Ok (fit (map (fun r => raw_targets (h r)) (data ds))), h') /\
    get_targets ds h'
    = transform (fit (map (fun r => raw_targets (h r)) (data ds)))
        (map (fun r => raw_targets (h r)) (data ds)) /\
    (forall r, raw_targets (h' r) = raw_targets (h r)) /\
    exists h'',
      normalize_targets fit transform ds h'
      = (Ok (fit (map (fun r => raw_targets (h r)) (data ds))), h'') /\
      get_targets ds h'' = get_targets ds h'.
Proof.
  intros Hnd Hlen.
  set (raws := map (fun r => raw_targets (h r)) (data ds)) in *.
  set (scaled := transform (fit raws) raws) in *.
  set (h' := write_targets (combine (data ds) scaled) h).
  assert (Hraw : forall r, raw_targets (h' r) = raw_targets (h r))
    by (intros r; apply write_targets_raw).
  assert (Hraws : map (fun r => raw_targets (h' r)) (data ds) = raws)
    by (apply map_ext; exact Hraw).
  assert (Hget : get_targets ds h' = scaled)
    by (apply get_targets_write; [ now symmetry | exact Hnd ]).
  exists h'. split; [ | split; [ exact Hget | split; [ exact Hraw | ] ] ].
  - unfold normalize_targets, set_targets. fold raws. fold scaled.
    now rewrite Hlen, Nat.eqb_refl.
  - exists (write_targets (combine (data ds) scaled) h'). split.
    + unfold normalize_targets, set_targets. rewrite Hraws. fold scaled.
      now rewrite Hlen, Nat.eqb_refl.
    + rewrite Hget. apply get_targets_write; [ now symmetry | exact Hnd ].
Qed.

End Normalize.

Section GetItem.
Context {F Mol MolGraph : Type}.
Variable featurizer :
  Mol -> option (list (list F)) -> option (list (list F)) -> MolGraph.




End GetItem.

(** X9, on three distinct datapoints. *)
Lemma targets_set_then_get_witness :
  exists h',
    set_targets ds_distinct [[7]; [8]; [9]]%Z heap0 = (Ok tt, h') /\
    get_targets ds_distinct h' = [[7]; [8]; [9]]%Z /\
    forall r, ~ In r (data ds_distinct) -> h' r = heap0 r.
Proof.
  destruct (@targets_set_then_get Z unit ds_distinct [[7]; [8]; [9]]%Z heap0)
    as [_ Hok].
  apply Hok; [ reflexivity | ].
  repeat constructor; simpl; intuition discriminate.
Defined.

(** X10, on the dataset that holds object 0 at positions 0 and 2: position 0
    reads back the row given for position 2. *)
Lemma targets_last_write_wins_witness :
  nth_error
    (get_targets ds_aliased
       (snd (set_targets ds_aliased [[7]; [8]; [9]]%Z heap0))) 0
  = nth_error [[7]; [8]; [9]]%Z 2.
Proof.
  refine (proj1 (@targets_last_write_wins Z unit ds_aliased [[7]; [8]; [9]]%Z
                   heap0 _ 0 2 0 eq_refl eq_refl eq_refl _)).
  intros [| [| [| j']]] Hlt; simpl; try lia; destruct j'; discriminate.
Defined.

(** X11, on three datapoints of which the third has no features, and on the
    first two alone. *)
Lemma features_array_or_error_witness :
  get_features ds_distinct heap_features = Raise ValueError /\
  get_features (mkDataset [0; 1]) heap_features = Ok (Some [[1; 2]; [3; 4]]%Z).
Proof.
  split.
  - destruct (@features_array_or_error Z unit ds_distinct heap_features)
      as (_ & _ & Herr & _).
    apply (Herr ValueError). split; [ reflexivity | ].
    exists 0, [1; 2], [1; 2]%Z. repeat split.
    simpl. do 2 apply Exists_cons_tl. apply Exists_cons_hd. exact I.
  - destruct (@features_array_or_error Z unit (mkDataset [0; 1]) heap_features)
      as (_ & Harr & _).
    apply (Harr [[1; 2]; [3; 4]]%Z). split; [ reflexivity | ].
    exists 2. repeat constructor.
Defined.

(** X12, on three distinct datapoints and the offset scaler. *)
Lemma normalize_targets_idempotent_witness :
  exists h',
    normalize_targets fit0 transform0 ds_distinct heap0 = (Ok 3%Z, h') /\
    get_targets ds_distinct h' = [[3]; [13]; [23]]%Z.
Proof.
  destruct (@normalize_targets_idempotent Z unit Z fit0 transform0 ds_distinct heap0)
    as (h' & Hn & Hg & _).
  - repeat constructor; simpl; intuition discriminate.
  - reflexivity.
  - exists h'. split; [ exact Hn | exact Hg ].
Defined.


End DatasetsProps.

(** * Bounds of the index tensors *)

Lemma mapM_row_error {R : Type} (T : Tensor R) (idx : list nat) (e : exn) :
  mapM (row T) idx = Raise e -> e = IndexError.
Proof.
  induction idx as [| i idx IH]; simpl; [ discriminate | ].
  unfold row at 1. destruct (nth_error (rows T) i); simpl.
  - destruct (mapM (row T) idx); simpl; [ discriminate | ].
    intros Hm. apply IH. now inversion Hm.
  - now inversion 1.
Qed.

Lemma index2_out_of_range {R : Type} (T : Tensor R) (idx : Index2) :
  Exists (Exists (fun i => nrows T <= i)) (entries idx) ->
  index2 T idx = Raise IndexError.
Proof.
  unfold index2. intros Hex.
  assert (Hm : mapM (mapM (row T)) (entries idx) = Raise IndexError).
  { induction Hex as [nb l Hnb | nb l _ IH]; simpl.
    - now rewrite mapM_row_out_of_range.
    - destruct (mapM (row T) nb) as [hs | e] eqn:Hnb; simpl.
      + now rewrite IH.
      + f_equal. eapply mapM_row_error; eauto. }
  now rewrite Hm.
Qed.

Section Bounds.
Context {R : Type} {SR : Scalar R} {TR : Torch R}.

(** X15. With the undirected flag off and a feature matrix [W_i] accepts,
    [forward] raises [IndexError] whenever the neighbour index tensor of the
    variant holds an index past the rows it gathers from: an entry of [a2b]
    not below the number of rows of [E] in the bond variant, an entry of
    [a2a] not below the number of rows of [V] in the atom variant. *)
Theorem neighbour_index_out_of_range (blk : Block R) (bmg : BatchMolGraph R)
    (V_d : option (Tensor R)) :
  undirected blk = false ->
  (variant blk = BondMessageBlock ->
   ncols (E bmg) = in_features (W_i blk) ->
   Exists (Exists (fun e => nrows (E bmg) <= e)) (entries (a2b bmg)) ->
   forward blk bmg V_d = Raise IndexError) /\
  (variant blk = AtomMessageBlock ->
   ncols (V bmg) = in_features (W_i blk) ->
   Exists (Exists (fun a => nrows (V bmg) <= a)) (entries (a2a bmg)) ->
   forward blk bmg V_d = Raise IndexError).
Proof.
  intros Hu. unfold forward. split; intros Hv Hw Hex; rewrite Hv.
  - unfold bond_forward, bond_hidden. rewrite apply_linear_ok by exact Hw. cbn [bind].
    assert (Hidx : index2 (tmap (tau blk) (linear_out (W_i blk) (E bmg))) (a2b bmg)
                   = Raise IndexError)
      by (apply index2_out_of_range; now rewrite tmap_nrows, linear_out_nrows).
    destruct (n_rounds blk) as [| n]; cbn [repeat_loop bind].
    + now rewrite Hidx.
    + unfold bond_round at 1. rewrite Hu. cbn [bind]. unfold bond_message.
      now rewrite Hidx.
  - unfold atom_forward, atom_hidden. rewrite apply_linear_ok by exact Hw. cbn [bind].
    assert (Hidx : index2 (tmap (tau blk) (linear_out (W_i blk) (V bmg))) (a2a bmg)
                   = Raise IndexError)
      by (apply index2_out_of_range; now rewrite tmap_nrows, linear_out_nrows).
    destruct (n_rounds blk) as [| n]; cbn [repeat_loop bind].
    + now rewrite Hidx.
    + unfold atom_round at 1. rewrite Hu. cbn [bind]. unfold atom_message.
      now rewrite Hidx.
Qed.

End Bounds.

(** X15, on the two-atom batch with an entry 3 in [a2b]. *)
Lemma neighbour_index_out_of_range_witness :
  forward (Z_block BondMessageBlock 1 1 1 false 3 false None)
    (mkBatchMolGraph (V two_atoms) (E two_atoms)
       (mkIndex2 1 [[0]; [3]; [1]]) (b2a two_atoms)
       (b2revb two_atoms) (a2a two_atoms) (mol_scope two_atoms))
    None
  = Raise IndexError.
Proof.
  destruct (@neighbour_index_out_of_range Z Z_Scalar Z_Torch
              (Z_block BondMessageBlock 1 1 1 false 3 false None)
              (mkBatchMolGraph (V two_atoms) (E two_atoms)
                 (mkIndex2 1 [[0]; [3]; [1]]) (b2a two_atoms)
                 (b2revb two_atoms) (a2a two_atoms) (mol_scope two_atoms))
              None eq_refl) as [Hb _].
  apply Hb; try reflexivity.
  simpl. apply Exists_cons_tl. apply Exists_cons_hd. apply Exists_cons_hd.
  apply le_n.
Defined.
